(** * Model resolution for custom endpoints: [loadConfigModels] and its
      cache-aside wrapper [loadModels]

    A shallow embedding of
    - [api/server/services/Config/loadConfigModels.js] and
    - the models controller ([getModelsConfig], [loadModels],
      [modelController]),
    followed by the properties of the resolution pipeline: one fetch per
    unique key, distribution of a shared result, fallback to the configured
    defaults, propagation of fetch failures, the cache round trip and the
    merge of the model details, and by what becomes of them under a key or a
    name that is a member of [Object.prototype].

    A JS object used as a dictionary is the finite map of its own
    properties ([gmap string _]); the one object whose key order is
    observed ([fetchPromisesMap], read back with [Object.keys] and
    [Object.values]) is an insertion-ordered association list.  Its keys all
    contain ["__"], so none of them is an array index and JS enumerates them
    in insertion order.  The dictionaries are object literals, so that a
    read also finds the members of [Object.prototype] and a write under
    ["__proto__"] runs its setter: both are written out where the code reads
    or writes under a key it does not choose.

    Asynchronous calls are modelled by their settled outcome: a promise is
    either fulfilled with a value or rejected with an error at some instant,
    and [await] turns a rejection into a thrown completion.  Every external
    call is recorded in the [World] it runs in. *)

From stdpp Require Import base option list strings gmap.

Open Scope string_scope.
Open Scope list_scope.

(** ** Values *)

(** An element of a model array: a plain identifier, or a structured entry
    [{ name, description? }]. *)
Inductive TModelEntry : Type :=
| ModelId (id : string)
| ModelSpec (name : string) (description : option string).

#[export] Instance TModelEntry_eq_dec : EqDecision TModelEntry.
Proof. solve_decision. Defined.

(** A thrown JS value: an [Error] with its [message]. *)
Record JsError : Type := { message : string }.

#[export] Instance JsError_eq_dec : EqDecision JsError.
Proof. solve_decision. Defined.

(** The [TypeError] raised when a property of [undefined] is read. *)
Definition TypeError : JsError :=
  {| message := "Cannot read properties of undefined" |}.

(** The [TypeError] raised by [uniqueKeyToEndpointsMap[uniqueKey].push(name)]
    when the value read has no [push]. *)
Definition notAFunction : JsError :=
  {| message := "uniqueKeyToEndpointsMap[uniqueKey].push is not a function" |}.

(** How a call ends: with a value, or with a thrown error. *)
Inductive Completion (A : Type) : Type :=
| Normal (a : A)
| Throw (e : JsError).
Arguments Normal {A} a.
Arguments Throw {A} e.

(** [endpoint.models] *)
Record TModels : Type := {
  models_fetch : bool;
  models_default : option (list TModelEntry);
  models_userIdQuery : bool
}.

(** A custom endpoint of the application configuration.  An absent string
    field and an empty one are both falsy, so both are the empty string. *)
Record TEndpoint : Type := {
  name : string;
  baseURL : string;
  apiKey : string;
  headers : option (list (string * string));
  directEndpoint : bool;
  models : option TModels
}.

(** [appConfig.endpoints.azureOpenAI] *)
Record TAzureConfig : Type := {
  modelNames : option (list TModelEntry);
  assistants : bool;
  assistantModels : option (list TModelEntry)
}.

(** The part of the application configuration the pipeline reads.
    [endpoints_custom] is [None] when [appConfig.endpoints.custom] is absent
    or is not an array. *)
Record AppConfig : Type := {
  endpoints_azureOpenAI : option TAzureConfig;
  endpoints_custom : option (list TEndpoint)
}.

(** [req.user]; the pipeline reads [req.user.id] unguarded, so a request is
    modelled with its user present. *)
Record TUser : Type := { user_id : string; user_role : option string }.

Record ServerRequest : Type := {
  user : TUser;
  query_includeDetails : option string
}.

(** The argument object of [fetchModels] / [fetchModelsWithDetails]. *)
Record FetchParams : Type := {
  fp_name : string;
  fp_apiKey : string;
  fp_baseURL : string;
  fp_user : string;
  fp_userObject : TUser;
  fp_headers : option (list (string * string));
  fp_direct : bool;
  fp_userIdQuery : bool
}.

#[export] Instance TModels_eq_dec : EqDecision TModels.
Proof. solve_decision. Defined.
#[export] Instance TEndpoint_eq_dec : EqDecision TEndpoint.
Proof. solve_decision. Defined.
#[export] Instance TUser_eq_dec : EqDecision TUser.
Proof. solve_decision. Defined.
#[export] Instance FetchParams_eq_dec : EqDecision FetchParams.
Proof. solve_decision. Defined.

(** [modelsConfig]: endpoint name to model array. *)
Abbreviation ModelsConfig := (gmap string (list TModelEntry)).

(** ** Insertion-ordered objects *)

Section OrderedObject.
Context {V : Type}.

(** [obj[k]] *)
Fixpoint alookup (k : string) (obj : list (string * V)) : option V :=
  match obj with
  | [] => None
  | (k', v) :: rest => if decide (k' = k) then Some v else alookup k rest
  end.

(** [obj[k] = v]: an existing key keeps its place, a new one goes last. *)
Fixpoint aset (k : string) (v : V) (obj : list (string * V)) : list (string * V) :=
  match obj with
  | [] => [(k, v)]
  | (k', v') :: rest =>
      if decide (k' = k) then (k, v) :: rest else (k', v') :: aset k v rest
  end.

(** [Object.keys(obj)] and [Object.values(obj)] *)
Definition Object_keys (obj : list (string * V)) : list string := obj.*1.
Definition Object_values (obj : list (string * V)) : list V := obj.*2.
End OrderedObject.

(** ** Object literals *)

(** The string-named members of [Object.prototype], which every object
    literal inherits: eleven functions and the accessor [__proto__], whose
    getter returns the prototype of the object.  Read through an object
    literal each of them is truthy, and none has a [push]. *)
Definition Object_prototype : list string :=
  ["constructor"; "__defineGetter__"; "__defineSetter__"; "hasOwnProperty";
   "__lookupGetter__"; "__lookupSetter__"; "isPrototypeOf"; "propertyIsEnumerable";
   "toString"; "valueOf"; "__proto__"; "toLocaleString"].

(** [obj[k]] finds a member of [Object.prototype] when [obj] has no own
    property [k]. *)
Definition inherited (k : string) : bool := bool_decide (k ∈ Object_prototype).

(** [obj[k] = v] on an object literal, for a value [v] that is an array or
    an object.  Under ["__proto__"] the assignment runs the setter of the
    accessor: [v] becomes the prototype of [obj], and [obj] gets no own
    property.  Under any other key the own property is created or
    updated. *)
Definition setProperty {V : Type} (k : string) (v : V) (obj : gmap string V)
    : gmap string V :=
  if decide (k = "__proto__") then obj else <[k := v]> obj.

(** [Object.assign(target, source)]: every own property of [source] is
    written with [target[k] = v]. *)
Definition Object_assign {V : Type} (target source : gmap string V) : gmap string V :=
  delete "__proto__" source ∪ target.

(** [s] is a truthy string. *)
Definition truthy (s : string) : bool := bool_decide (s ≠ "").

(** [typeof model === 'string' ? model : model.name] *)
Definition modelName (model : TModelEntry) : string :=
  match model with
  | ModelId id => id
  | ModelSpec nm _ => nm
  end.

(** The filter of [loadConfigModels]:
    [baseURL && apiKey && name && models && (models.fetch || models.default)];
    an array, even an empty one, is truthy. *)
Definition eligible (endpoint : TEndpoint) : bool :=
  truthy (baseURL endpoint) && truthy (apiKey endpoint) && truthy (name endpoint) &&
  match models endpoint with
  | Some m => models_fetch m || bool_decide (is_Some (models_default m))
  | None => false
  end.

(** ** Results of the external calls *)

(** What a fetch resolves to: nothing, an array, or
    [{ models, modelDetails }].  [D] is the per-model metadata
    ([TModelDetails]), opaque to the pipeline. *)
Inductive FetchData (D : Type) : Type :=
| DataAbsent
| DataList (l : list TModelEntry)
| DataDetailed (modelList : option (list TModelEntry))
               (modelDetails : option (gmap string D)).
Arguments DataAbsent {D}.
Arguments DataList {D} l.
Arguments DataDetailed {D} modelList modelDetails.

(** A settled promise: fulfilled with a value, or rejected with an error
    at some instant. *)
Inductive Promise (D : Type) : Type :=
| Fulfilled (data : FetchData D)
| Rejected (instant : nat) (e : JsError).
Arguments Fulfilled {D} data.
Arguments Rejected {D} instant e.

(** The value [loadConfigModels] and [loadModels] return: the models
    config, or [{ models, modelDetails }]. *)
Inductive ModelsResult (D : Type) : Type :=
| Plain (modelsConfig : ModelsConfig)
| Detailed (modelsConfig : ModelsConfig) (modelDetails : gmap string D).
Arguments Plain {D} modelsConfig.
Arguments Detailed {D} modelsConfig modelDetails.

(** The collaborators imported from [librechat-data-provider],
    [@librechat/api] and [~/server/services/Config], and the constants
    [EModelEndpoint.*] and [CacheKeys.MODELS_CONFIG]. *)
Class Collaborators (D : Type) : Type := {
  extractEnvVariable : string → string;
  normalizeEndpointName : string → string;
  isUserProvided : string → bool;
  azureOpenAI : string;
  azureAssistants : string;
  MODELS_CONFIG : string;
  fetchModels : FetchParams → Promise D;
  fetchModelsWithDetails : FetchParams → Promise D;
  getAppConfig : option string → option AppConfig;
  loadDefaultModels : ServerRequest → Completion ModelsConfig
}.

(** ** The world the calls run in *)

(** Modelled from the spec: the cache store [getLogStores(CONFIG_STORE)] is
    a key/value store, [get(key)] giving the value last [set] under [key]
    or nothing.  The world also records every call of the static default
    provider and of the fetch collaborator, and what the controller logs. *)
Record World (D : Type) : Type := {
  cache : gmap string (ModelsResult D);
  defaultCalls : list ServerRequest;
  fetchCalls : list FetchParams;
  errorLog : list JsError
}.
Arguments cache {D} w.
Arguments defaultCalls {D} w.
Arguments fetchCalls {D} w.
Arguments errorLog {D} w.

Definition M (D A : Type) : Type := World D → Completion A * World D.

#[export] Instance M_ret {D} : MRet (M D) := λ A a w, (Normal a, w).
#[export] Instance M_bind {D} : MBind (M D) := λ A B f m w,
  match m w with
  | (Normal a, w') => f a w'
  | (Throw e, w') => (Throw e, w')
  end.

Section Resolution.

Context {TModelDetails : Type} `{!Collaborators TModelDetails}.

#[local] Abbreviation M := (M TModelDetails).
#[local] Abbreviation Promise := (Promise TModelDetails).
#[local] Abbreviation FetchData := (FetchData TModelDetails).
#[local] Abbreviation ModelsResult := (ModelsResult TModelDetails).
#[local] Abbreviation World := (World TModelDetails).

Definition throw {A} (e : JsError) : M A := λ w, (Throw e, w).

(** Reading a property of a value that may be [undefined]. *)
Definition required {A} (o : option A) : M A :=
  match o with
  | Some a => mret a
  | None => throw TypeError
  end.

(** [const fetchFn = includeDetails ? fetchModelsWithDetails : fetchModels] *)
Definition fetchFn (includeDetails : bool) : FetchParams → Promise :=
  if includeDetails then fetchModelsWithDetails else fetchModels.

(** The world after the fetch calls [calls] have been issued. *)
Definition recordFetches (calls : list FetchParams) (w : World) : World :=
  {| cache := cache w; defaultCalls := defaultCalls w;
     fetchCalls := fetchCalls w ++ calls; errorLog := errorLog w |}.

(** [fetchFn(params)]: the call is recorded; its promise is returned
    without being awaited. *)
Definition callFetch (includeDetails : bool) (params : FetchParams) : M Promise :=
  λ w, (Normal (fetchFn includeDetails params), recordFetches [params] w).

(** [await loadDefaultModels(req)] *)
Definition callLoadDefaultModels (req : ServerRequest) : M ModelsConfig :=
  λ w, (loadDefaultModels req,
        {| cache := cache w; defaultCalls := defaultCalls w ++ [req];
           fetchCalls := fetchCalls w; errorLog := errorLog w |}).

(** [await cache.get(key)] and [await cache.set(key, value)] *)
Definition cache_get (key : string) : M (option ModelsResult) :=
  λ w, (Normal (cache w !! key), w).
Definition cache_set (key : string) (value : ModelsResult) : M () :=
  λ w, (Normal (),
        {| cache := <[key := value]> (cache w); defaultCalls := defaultCalls w;
           fetchCalls := fetchCalls w; errorLog := errorLog w |}).

(** [logger.error(..., error)] *)
Definition logger_error (e : JsError) : M () :=
  λ w, (Normal (),
        {| cache := cache w; defaultCalls := defaultCalls w;
           fetchCalls := fetchCalls w; errorLog := errorLog w ++ [e] |}).

(** The rejection that happens first among [promises]; among those of one
    instant, the first in the array. *)
Fixpoint firstRejection (promises : list Promise) : option (nat * JsError) :=
  match promises with
  | [] => None
  | Fulfilled _ :: rest => firstRejection rest
  | Rejected t e :: rest =>
      match firstRejection rest with
      | Some (t', e') => if decide (t' < t)%nat then Some (t', e') else Some (t, e)
      | None => Some (t, e)
      end
  end.

(** The values of the fulfilled promises, in array order. *)
Fixpoint fulfilledValues (promises : list Promise) : list FetchData :=
  match promises with
  | [] => []
  | Fulfilled data :: rest => data :: fulfilledValues rest
  | Rejected _ _ :: rest => fulfilledValues rest
  end.

(** [await Promise.all(promises)]: the values in array order when every
    promise is fulfilled, and otherwise the error of the promise that
    rejects first. *)
Definition Promise_all (promises : list Promise) : Completion (list FetchData) :=
  match firstRejection promises with
  | Some (_, e) => Throw e
  | None => Normal (fulfilledValues promises)
  end.

Definition await_all (promises : list Promise) : M (list FetchData) :=
  λ w, (Promise_all promises, w).

(** A [for] loop over an array, threading the loop's variables. *)
Fixpoint forEach {A S : Type} (body : S → A → M S) (l : list A) (s : S) : M S :=
  match l with
  | [] => mret s
  | x :: rest => s' ← body s x; forEach body rest s'
  end.

(** ** [loadConfigModels] *)

(** The objects the function builds. *)
Record Registry : Type := {
  modelsConfig : ModelsConfig;
  allModelDetails : gmap string TModelDetails;
  fetchPromisesMap : list (string * Promise);
  uniqueKeyToEndpointsMap : gmap string (list string);
  endpointsMap : gmap string TEndpoint
}.

Definition API_KEY (endpoint : TEndpoint) : string := extractEnvVariable (apiKey endpoint).
Definition BASE_URL (endpoint : TEndpoint) : string := extractEnvVariable (baseURL endpoint).

(** [`${BASE_URL}__${API_KEY}`] *)
Definition makeUniqueKey (base_url api_key : string) : string :=
  base_url +:+ "__" +:+ api_key.
Definition uniqueKey (endpoint : TEndpoint) : string :=
  makeUniqueKey (BASE_URL endpoint) (API_KEY endpoint).

(** [models.fetch && !isUserProvided(API_KEY) && !isUserProvided(BASE_URL)] *)
Definition fetchable (m : TModels) (endpoint : TEndpoint) : bool :=
  models_fetch m && negb (isUserProvided (API_KEY endpoint))
                 && negb (isUserProvided (BASE_URL endpoint)).

Definition fetchParams (req : ServerRequest) (m : TModels) (endpoint : TEndpoint) : FetchParams :=
  {| fp_name := normalizeEndpointName (name endpoint);
     fp_apiKey := API_KEY endpoint;
     fp_baseURL := BASE_URL endpoint;
     fp_user := user_id (user req);
     fp_userObject := user req;
     fp_headers := headers endpoint;
     fp_direct := directEndpoint endpoint;
     fp_userIdQuery := models_userIdQuery m |}.

(** The body of the first loop (lines 64-101). *)
Definition registerEndpoint (req : ServerRequest) (includeDetails : bool)
    (st : Registry) (endpoint : TEndpoint) : M Registry :=
  m ← required (models endpoint);
  let nm := normalizeEndpointName (name endpoint) in
  (* endpointsMap[name] = endpoint; under "__proto__" the endpoint becomes
     the prototype, which is what endpointsMap["__proto__"] then reads: the
     entry of that name stands for it *)
  let endpointsMap' := <[nm := endpoint]> (endpointsMap st) in
  let key := uniqueKey endpoint in
  let modelsConfig' := setProperty nm [] (modelsConfig st) in
  if fetchable m endpoint then
    match uniqueKeyToEndpointsMap st !! key, inherited key with
    | None, true =>
        (* Line 79 finds a promise or a member of Object.prototype under the
           key, both truthy, and makes no call; line 91 finds the member,
           which is truthy, and keeps it; line 92 finds no push on it. *)
        throw notAFunction
    | group, _ =>
        (* fetchPromisesMap[uniqueKey] || fetchFn(...): a promise is truthy.
           The two objects have the same own keys, both being written in
           every pass that gets past line 92: a key that has a group of its
           own has a promise of its own. *)
        promise ← match alookup key (fetchPromisesMap st) with
                  | Some p => mret p
                  | None => callFetch includeDetails (fetchParams req m endpoint)
                  end;
        let names := default [] group in
        mret {| modelsConfig := modelsConfig';
                allModelDetails := allModelDetails st;
                fetchPromisesMap := aset key promise (fetchPromisesMap st);
                uniqueKeyToEndpointsMap :=
                  <[key := names ++ [nm]]> (uniqueKeyToEndpointsMap st);
                endpointsMap := endpointsMap' |}
    end
  else
    mret {| modelsConfig :=
              match models_default m with
              | Some l => setProperty nm (ModelId <$> (modelName <$> l)) modelsConfig'
              | None => modelsConfig'
              end;
            allModelDetails := allModelDetails st;
            fetchPromisesMap := fetchPromisesMap st;
            uniqueKeyToEndpointsMap := uniqueKeyToEndpointsMap st;
            endpointsMap := endpointsMap' |}.

(** [!list?.length] *)
Definition noLength (l : option (list TModelEntry)) : bool :=
  match l with
  | Some (_ :: _) => false
  | _ => true
  end.

(** [endpoint.models.default ?? []], for [endpoint = endpointsMap[name]] *)
Definition defaultModels (st : Registry) (nm : string) : M (list TModelEntry) :=
  endpoint ← required (endpointsMap st !! nm);
  m ← required (models endpoint);
  mret (default [] (models_default m)).

(** [modelsConfig[name] = !list?.length ? (endpoint.models.default ?? []) : list] *)
Definition assignModels (st : Registry) (nm : string)
    (l : option (list TModelEntry)) : M ModelsConfig :=
  if noLength l then
    d ← defaultModels st nm; mret (setProperty nm d (modelsConfig st))
  else
    mret (setProperty nm (default [] l) (modelsConfig st)).

(** The body of the inner loop (lines 111-126). *)
Definition distribute (includeDetails : bool) (data : FetchData)
    (st : Registry) (nm : string) : M Registry :=
  match includeDetails, data with
  | true, DataDetailed modelList modelDetails =>
      mc ← assignModels st nm modelList;
      mret {| modelsConfig := mc;
              allModelDetails :=
                match modelDetails with
                | Some md => Object_assign (allModelDetails st) md
                | None => allModelDetails st
                end;
              fetchPromisesMap := fetchPromisesMap st;
              uniqueKeyToEndpointsMap := uniqueKeyToEndpointsMap st;
              endpointsMap := endpointsMap st |}
  | _, _ =>
      mc ← assignModels st nm
              match data with DataList l => Some l | _ => None end;
      mret {| modelsConfig := mc;
              allModelDetails := allModelDetails st;
              fetchPromisesMap := fetchPromisesMap st;
              uniqueKeyToEndpointsMap := uniqueKeyToEndpointsMap st;
              endpointsMap := endpointsMap st |}
  end.

(** The body of the second loop (lines 106-127), for
    [currentKey = uniqueKeys[i]] and [data = fetchedData[i]]; the two arrays
    are the keys and the awaited values of one object, side by side. *)
Definition distributeGroup (includeDetails : bool) (st : Registry)
    (group : string * FetchData) : M Registry :=
  associatedNames ← required (uniqueKeyToEndpointsMap st !! group.1);
  forEach (distribute includeDetails group.2) associatedNames st.

(** Lines 27-36: the Azure entries. *)
Definition azureModels (appConfig : AppConfig) : ModelsConfig :=
  match endpoints_azureOpenAI appConfig with
  | None => ∅
  | Some azureConfig =>
      let mc := match modelNames azureConfig with
                | Some l => <[azureOpenAI := l]> ∅
                | None => ∅
                end in
      match assistants azureConfig, assistantModels azureConfig with
      | true, Some l => <[azureAssistants := l]> mc
      | _, _ => mc
      end
  end.

Definition result (includeDetails : bool) (mc : ModelsConfig)
    (details : gmap string TModelDetails) : ModelsResult :=
  if includeDetails then Detailed mc details else Plain mc.

(** Lines 42-49: the endpoints that pass the filter. *)
Definition customEndpoints (custom : list TEndpoint) : list TEndpoint :=
  filter (λ endpoint, eligible endpoint = true) custom.

(** The objects as they are before the first loop. *)
Definition initialRegistry (modelsConfig0 : ModelsConfig) : Registry :=
  {| modelsConfig := modelsConfig0; allModelDetails := ∅;
     fetchPromisesMap := []; uniqueKeyToEndpointsMap := ∅;
     endpointsMap := ∅ |}.

(** Lines 51-133: the two loops over the endpoints that passed the filter,
    starting from the Azure entries [modelsConfig0]. *)
Definition resolveEndpoints (req : ServerRequest) (includeDetails : bool)
    (modelsConfig0 : ModelsConfig) (customEndpoints : list TEndpoint) : M ModelsResult :=
  st ← forEach (registerEndpoint req includeDetails) customEndpoints
         (initialRegistry modelsConfig0);
  fetchedData ← await_all (Object_values (fetchPromisesMap st));
  let uniqueKeys := Object_keys (fetchPromisesMap st) in
  st' ← forEach (distributeGroup includeDetails) (zip uniqueKeys fetchedData) st;
  mret (result includeDetails (modelsConfig st') (allModelDetails st')).

Definition loadConfigModels (req : ServerRequest) (includeDetails : bool) : M ModelsResult :=
  match getAppConfig (user_role (user req)) with
  | None => mret (result includeDetails ∅ ∅)
  | Some appConfig =>
      let modelsConfig0 := azureModels appConfig in
      match endpoints_custom appConfig with
      | None => mret (result includeDetails modelsConfig0 ∅)
      | Some custom =>
          resolveEndpoints req includeDetails modelsConfig0 (customEndpoints custom)
      end
  end.

(** ** The controller: [getModelsConfig], [loadModels], [modelController] *)

(** [includeDetails ? CacheKeys.MODELS_CONFIG + '_details' : CacheKeys.MODELS_CONFIG] *)
Definition cacheKey (includeDetails : bool) : string :=
  if includeDetails then MODELS_CONFIG +:+ "_details" else MODELS_CONFIG.

(** [customResult.models] and [customResult.modelDetails || {}].  The
    result of [loadConfigModels(req, { includeDetails: true })] always has
    the detailed shape; a plain config is read as carrying neither field. *)
Definition result_models (r : ModelsResult) : ModelsConfig :=
  match r with
  | Detailed mc _ => mc
  | Plain _ => ∅
  end.
Definition result_modelDetails (r : ModelsResult) : gmap string TModelDetails :=
  match r with
  | Detailed _ md => md
  | Plain _ => ∅
  end.

(** The own properties [{ ...customModelsConfig }] spreads, for the result
    of [loadConfigModels(req)], which always has the plain shape. *)
Definition result_plain (r : ModelsResult) : ModelsConfig :=
  match r with
  | Plain mc => mc
  | Detailed mc _ => ∅
  end.

(** [{ ...a, ...b }]: the entries of [b] overwrite those of [a]. *)
Definition spread (a b : ModelsConfig) : ModelsConfig := b ∪ a.

Definition loadModels (req : ServerRequest) (includeDetails : bool) : M ModelsResult :=
  cachedModelsConfig ← cache_get (cacheKey includeDetails);
  match cachedModelsConfig with
  | Some cached => mret cached
  | None =>
      defaultModelsConfig ← callLoadDefaultModels req;
      if includeDetails then
        customResult ← loadConfigModels req true;
        let modelConfig :=
          Detailed (spread defaultModelsConfig (result_models customResult))
                   (result_modelDetails customResult) in
        _ ← cache_set (cacheKey includeDetails) modelConfig;
        mret modelConfig
      else
        customModelsConfig ← loadConfigModels req false;
        let modelConfig :=
          Plain (spread defaultModelsConfig (result_plain customModelsConfig)) in
        _ ← cache_set (cacheKey includeDetails) modelConfig;
        mret modelConfig
  end.

Definition getModelsConfig (req : ServerRequest) (includeDetails : bool) : M ModelsResult :=
  modelsConfig ← cache_get (cacheKey includeDetails);
  match modelsConfig with
  | Some cached => mret cached
  | None => loadModels req includeDetails
  end.

(** What the controller sends: [res.send(modelConfig)], or
    [res.status(500).send({ error: error.message })]. *)
Inductive ResponseBody : Type :=
| SendModels (modelConfig : ModelsResult)
| SendError (error : string).

Record Response : Type := { status : nat; body : ResponseBody }.

(** [req.query.includeDetails === 'true'] *)
Definition wantsDetails (req : ServerRequest) : bool :=
  bool_decide (query_includeDetails req = Some "true").

Definition modelController (req : ServerRequest) (w : World) : Response * World :=
  let includeDetails := wantsDetails req in
  match loadModels req includeDetails w with
  | (Normal modelConfig, w') =>
      ({| status := 200; body := SendModels modelConfig |}, w')
  | (Throw error, w') =>
      ({| status := 500; body := SendError (message error) |},
       (logger_error error w').2)
  end.

(** ** Vocabulary of the properties *)

(** The endpoint is one the first loop fetches for. *)
Definition requiresFetch (endpoint : TEndpoint) : bool :=
  match models endpoint with
  | Some m => fetchable m endpoint
  | None => false
  end.

(** The name an endpoint is registered under. *)
Definition endpointName (endpoint : TEndpoint) : string :=
  normalizeEndpointName (name endpoint).

(** The FetchKeys of a list of endpoints, in declaration order, with
    repetitions. *)
Definition fetchKeys (es : list TEndpoint) : list string :=
  uniqueKey <$> filter (λ e, requiresFetch e = true) es.

(** The endpoints that bring a FetchKey not in [seen], in declaration
    order: the first endpoint of every new key. *)
Fixpoint firstFetchers (seen : list string) (es : list TEndpoint) : list TEndpoint :=
  match es with
  | [] => []
  | e :: rest =>
      if requiresFetch e && bool_decide (uniqueKey e ∉ seen)
      then e :: firstFetchers (seen ++ [uniqueKey e]) rest
      else firstFetchers seen rest
  end.

(** The call a fetching endpoint issues; [models] is present on every
    endpoint that passed the filter. *)
Definition fetchParamsOf (req : ServerRequest) (e : TEndpoint) : FetchParams :=
  fetchParams req (default {| models_fetch := false; models_default := None;
                              models_userIdQuery := false |} (models e)) e.

(** The FetchKey a recorded call was issued for. *)
Definition callKey (p : FetchParams) : string :=
  makeUniqueKey (fp_baseURL p) (fp_apiKey p).

(** A list of keys without its repetitions, every key at its first place. *)
Fixpoint firstSeen (seen : list string) (keys : list string) : list string :=
  match keys with
  | [] => []
  | k :: rest =>
      if bool_decide (k ∉ seen) then k :: firstSeen (seen ++ [k]) rest
      else firstSeen seen rest
  end.

(** The names of the FetchGroup of key [k]. *)
Definition groupNames (k : string) (es : list TEndpoint) : list string :=
  endpointName <$> filter (λ e, requiresFetch e = true ∧ uniqueKey e = k) es.

(** The last endpoint registered under the name [nm]. *)
Definition lastNamed (nm : string) (es : list TEndpoint) : option TEndpoint :=
  last (filter (λ e, endpointName e = nm) es).

(** The model list the merge reads from a fetch result: [data.models] of a
    detailed result in detailed mode, the array itself otherwise. *)
Definition fetchedList (includeDetails : bool) (data : FetchData)
    : option (list TModelEntry) :=
  match includeDetails, data with
  | true, DataDetailed modelList _ => modelList
  | _, DataList l => Some l
  | _, _ => None
  end.

(** The [modelDetails] the merge reads from a fetch result. *)
Definition fetchedDetails (includeDetails : bool) (data : FetchData)
    : gmap string TModelDetails :=
  match includeDetails, data with
  | true, DataDetailed _ (Some md) => md
  | _, _ => ∅
  end.

(** [models.default ?? []] of an endpoint. *)
Definition configuredDefault (e : TEndpoint) : list TModelEntry :=
  default [] (models e ≫= models_default).

(** The list the first loop leaves for an endpoint it does not fetch for. *)
Definition staticModels (e : TEndpoint) : list TModelEntry :=
  ModelId <$> (modelName <$> configuredDefault e).

(** The list the merge assigns to an endpoint of a group whose fetch
    resolved to [data]. *)
Definition mergedModels (includeDetails : bool) (data : FetchData) (e : TEndpoint)
    : list TModelEntry :=
  match fetchedList includeDetails data with
  | Some (m :: l) => m :: l
  | _ => configuredDefault e
  end.

(** The merge of the details of the fetch results, in the order of the
    list. *)
Definition mergeDetails (includeDetails : bool) (datas : list FetchData)
    : gmap string TModelDetails :=
  foldl (λ acc data, Object_assign acc (fetchedDetails includeDetails data)) ∅ datas.

(** The eligible endpoints of the configuration a request sees. *)
Definition eligibleEndpoints (req : ServerRequest) : list TEndpoint :=
  match getAppConfig (user_role (user req)) with
  | Some appConfig =>
      match endpoints_custom appConfig with
      | Some custom => customEndpoints custom
      | None => []
      end
  | None => []
  end.

(** The first loop stops at an endpoint it fetches for whose unique key
    names a member of [Object.prototype]. *)
Definition blocks (e : TEndpoint) : bool :=
  requiresFetch e && inherited (uniqueKey e).

(** The endpoints the first loop gets past. *)
Fixpoint reached (es : list TEndpoint) : list TEndpoint :=
  match es with
  | [] => []
  | e :: rest => if blocks e then [] else e :: reached rest
  end.

(** No unique key fetched for names a member of [Object.prototype]. *)
Definition plainKeys (req : ServerRequest) : Prop :=
  ∀ e, e ∈ eligibleEndpoints req → requiresFetch e = true →
       inherited (uniqueKey e) = false.

(** The calls a resolution issues, and their promises: one per FetchKey, by
    the first endpoint that has it, among the endpoints the first loop gets
    past. *)
Definition issuedCalls (req : ServerRequest) : list FetchParams :=
  fetchParamsOf req <$> firstFetchers [] (reached (eligibleEndpoints req)).
Definition issuedPromises (req : ServerRequest) (includeDetails : bool) : list Promise :=
  fetchFn includeDetails <$> issuedCalls req.

(** The endpoints of a request's configuration are registered under names
    that are unique after normalization. *)
Definition uniqueNames (req : ServerRequest) : Prop :=
  NoDup (endpointName <$> eligibleEndpoints req).

(** The models config inside a result of either shape. *)
Definition resultModels (r : ModelsResult) : ModelsConfig :=
  match r with
  | Plain mc => mc
  | Detailed mc _ => mc
  end.

(** A world in which nothing has happened yet. *)
Definition emptyWorld : World :=
  {| cache := ∅; defaultCalls := []; fetchCalls := []; errorLog := [] |}.

(** ** Vocabulary of the proofs *)

Implicit Types (w : World) (st : Registry) (e : TEndpoint) (es : list TEndpoint)
  (req : ServerRequest) (d : bool) (k nm : string).

(** What the registry of the first loop looks like after the endpoints
    [es], relative to the registry [st] it started from. *)
Definition registered req d es st st' : Prop :=
  fetchPromisesMap st' =
    fetchPromisesMap st ++
    ((λ e, (uniqueKey e, fetchFn d (fetchParamsOf req e))) <$>
       firstFetchers (fetchPromisesMap st).*1 es) ∧
  allModelDetails st' = allModelDetails st ∧
  (∀ k, uniqueKeyToEndpointsMap st' !! k =
        if decide (k ∈ fetchKeys es)
        then Some (default [] (uniqueKeyToEndpointsMap st !! k) ++ groupNames k es)
        else uniqueKeyToEndpointsMap st !! k) ∧
  (∀ nm, endpointsMap st' !! nm =
         match lastNamed nm es with
         | Some e => Some e
         | None => endpointsMap st !! nm
         end) ∧
  (∀ nm, modelsConfig st' !! nm =
         match lastNamed nm es with
         | Some e =>
             if decide (nm = "__proto__") then modelsConfig st !! nm
             else Some (if requiresFetch e then [] else staticModels e)
         | None => modelsConfig st !! nm
         end).

(** The registries [st] and [st'] differ in [modelsConfig] and
    [allModelDetails] at most. *)
Definition sameMaps st st' : Prop :=
  endpointsMap st' = endpointsMap st ∧
  uniqueKeyToEndpointsMap st' = uniqueKeyToEndpointsMap st ∧
  fetchPromisesMap st' = fetchPromisesMap st.

(** Every name has its endpoint registered, with [models] present. *)
Definition namesKnown st (names : list string) : Prop :=
  ∀ nm, nm ∈ names → ∃ e, endpointsMap st !! nm = Some e ∧ is_Some (models e).

(** The name [nm] belongs to the group of [g]'s key. *)
Definition inGroup st nm (g : string * FetchData) : Prop :=
  nm ∈ default [] (uniqueKeyToEndpointsMap st !! g.1).

(** Every group has its names recorded, at least one, all of them known. *)
Definition groupsKnown st (gs : list (string * FetchData)) : Prop :=
  ∀ g, g ∈ gs → ∃ names, uniqueKeyToEndpointsMap st !! g.1 = Some names
                          ∧ names ≠ [] ∧ namesKnown st names.

(** No issued fetch rejects. *)
Definition allFulfilled req d : Prop :=
  ∀ p, p ∈ issuedCalls req → ∃ data, fetchFn d p = Fulfilled data.

(** The Azure entries of the configuration a request sees. *)
Definition configuredAzure req : ModelsConfig :=
  match getAppConfig (user_role (user req)) with
  | Some appConfig => azureModels appConfig
  | None => ∅
  end.

(** The configuration has no list of custom endpoints. *)
Definition customAbsent req : Prop :=
  match getAppConfig (user_role (user req)) with
  | Some appConfig => endpoints_custom appConfig = None
  | None => True
  end.


(** The premises of C2 on two endpoints: both eligible, both asking for a
    fetch, the same resolved baseURL and apiKey, different names. *)
Definition sharesKey (a b : TEndpoint) : Prop :=
  eligible a = true ∧ eligible b = true ∧
  models_fetch <$> models a = Some true ∧ models_fetch <$> models b = Some true ∧
  BASE_URL a = BASE_URL b ∧ API_KEY a = API_KEY b ∧
  endpointName a ≠ endpointName b.
(** The result has the detailed shape [{ models, modelDetails }]. *)
Definition isDetailed (r : ModelsResult) : bool :=
  match r with
  | Detailed _ _ => true
  | Plain _ => false
  end.

(** Every filled slot of the cache holds a result of the shape of its
    verbosity. *)
Definition wellShaped (c : gmap string ModelsResult) : Prop :=
  ∀ d r, c !! cacheKey d = Some r → isDetailed r = d.


End Resolution.

(** * The client: [useModelParams] and the counter of [ModelParams]

    A render of the hook is a function of what its inner hooks return: the
    saved values read by [useLocalStorage] and the data of the models query.
    Its callbacks are modelled by the value they hand to [setSavedValues];
    the render that follows a callback is the hook on that value as its saved
    values.

    The saved values, like the [modelDetails] of the query, are a plain
    object: the map of its own properties, read through [Object.prototype].
    The object [values] is built by assignments under parameter names, one
    of which may be ["__proto__"], so that it is modelled with its
    prototype.  The values themselves are plain data, as [JSON.parse] and
    literals give them: an object among them has [Object.prototype] at the
    end of its prototype chain, data properties that can be written, and no
    property named ["__proto__"]. *)

(** A model parameter, with the fields the hook and the counter read.
    [Value] is a JS value other than [undefined]; an optional field, and
    [unknown], is an [option], [None] being [undefined]. *)
Record TModelParameter (Value : Type) : Type := {
  param_name : string;
  param_description : option string;
  param_default_value : option Value
}.
Arguments param_name {Value} _.
Arguments param_description {Value} _.
Arguments param_default_value {Value} _.

#[export] Instance TModelParameter_eq_dec `{EqDecision Value} :
  EqDecision (TModelParameter Value).
Proof. solve_decision. Defined.

(** [TModelDetails] as the client reads it: [modelDetails?.parameters]. *)
Record TClientModelDetails (Value : Type) : Type := {
  details_parameters : option (list (TModelParameter Value))
}.
Arguments details_parameters {Value} _.

(** What the setter of [__proto__] makes of the value assigned: an object
    becomes the prototype, [null] removes the prototype, and a primitive
    is ignored. *)
Inductive Kind : Type := Primitive | Null | Object.

(** The prototype of an object that started as a literal. *)
Inductive Prototype (Value : Type) : Type :=
| ObjectPrototype             (* Object.prototype *)
| NoPrototype                 (* null *)
| ValuePrototype (p : Value). (* the object it was replaced by *)
Arguments ObjectPrototype {Value}.
Arguments NoPrototype {Value}.
Arguments ValuePrototype {Value} p.

(** An object with its own properties and its prototype. *)
Record JsObject (Value : Type) : Type := {
  own : gmap string (option Value);
  prototype : Prototype Value
}.
Arguments own {Value} _.
Arguments prototype {Value} _.

Section Client.

Context {Value : Type}.

(** [a === b] on values other than [undefined]; nothing is assumed of it
    ([NaN === NaN] is false). *)
Variable strictEq : Value → Value → bool.
Variable MODEL_PARAMS_PREFIX : string.   (* LocalStorageKeys.MODEL_PARAMS_PREFIX *)

(** [({})[k]] for a member [k] of [Object.prototype]: the inherited
    function, and [Object.prototype] itself for ["__proto__"]. *)
Variable member : string → Value.
(** The kind of a value, for the setter of [__proto__]. *)
Variable kindOf : Value → Kind.
(** [o[k]] for an object [o] that has no own property [k] and whose
    prototype is the object [p]. *)
Variable readThrough : Value → string → option Value.

(** [ModelParamValues = Record<string, unknown>]; a property may hold
    [undefined]. *)
#[local] Abbreviation ModelParamValues := (gmap string (option Value)).
#[local] Abbreviation TModelParameter := (TModelParameter Value).
#[local] Abbreviation TModelDetails := (TClientModelDetails Value).
#[local] Abbreviation JsObject := (JsObject Value).

(** [obj[key]] on a plain object: the own property, or else the member of
    [Object.prototype] of that name. *)
Definition getProp (obj : ModelParamValues) (key : string) : option Value :=
  match obj !! key with
  | Some v => v
  | None => if inherited key then Some (member key) else None
  end.

(** [{}] *)
Definition emptyObject : JsObject := {| own := ∅; prototype := ObjectPrototype |}.

(** [o[key]] *)
Definition getField (o : JsObject) (key : string) : option Value :=
  match own o !! key with
  | Some v => v
  | None =>
      match prototype o with
      | ObjectPrototype => if inherited key then Some (member key) else None
      | NoPrototype => None
      | ValuePrototype p => readThrough p key
      end
  end.

(** [o[key] = v].  Under ["__proto__"] the assignment finds the accessor of
    [Object.prototype] and runs its setter, unless [o] has an own property
    of that name or no prototype to inherit the accessor from. *)
Definition setField (key : string) (v : Value) (o : JsObject) : JsObject :=
  let assigned := {| own := <[key := Some v]> (own o); prototype := prototype o |} in
  if decide (key = "__proto__") then
    match own o !! key, prototype o with
    | Some _, _ => assigned
    | None, NoPrototype => assigned
    | None, _ =>
        match kindOf v with
        | Object => {| own := own o; prototype := ValuePrototype v |}
        | Null => {| own := own o; prototype := NoPrototype |}
        | Primitive => o
        end
    end
  else assigned.

(** [a !== b] *)
Definition strictNe (a b : option Value) : bool :=
  match a, b with
  | None, None => false
  | Some x, Some y => negb (strictEq x y)
  | _, _ => true
  end.

(** Lines 35-37: the key the values of a model are stored under. *)
Definition storageKey (modelId : option string) : string :=
  match modelId with
  | Some id => if truthy id then MODEL_PARAMS_PREFIX +:+ id else MODEL_PARAMS_PREFIX
  | None => MODEL_PARAMS_PREFIX
  end.

(** Lines 43-48: [modelsData.modelDetails[modelId]], when there is a model
    id and the data carries model details.  Under an id that names a member
    of [Object.prototype] and has no details of its own the read finds the
    member, which has no [parameters]. *)
Definition modelDetailsOf (modelId : option string)
    (modelsData : option (ModelsResult TModelDetails)) : option TModelDetails :=
  match modelId, modelsData with
  | Some id, Some (Detailed _ modelDetails) =>
      if truthy id then
        match modelDetails !! id with
        | Some details => Some details
        | None => if inherited id then Some {| details_parameters := None |} else None
        end
      else None
  | _, _ => None
  end.

(** Lines 50-52: [modelDetails?.parameters ?? []] *)
Definition parametersOf (modelDetails : option TModelDetails) : list TModelParameter :=
  default [] (modelDetails ≫= details_parameters).

(** Lines 57-68: the saved values merged with the defaults, one step of
    the loop and the loop. *)
Definition addValue (savedValues : ModelParamValues) (result : JsObject)
    (param : TModelParameter) : JsObject :=
  match getProp savedValues (param_name param) with
  | Some savedValue => setField (param_name param) savedValue result
  | None =>
      match param_default_value param with
      | Some default_value => setField (param_name param) default_value result
      | None => result
      end
  end.

Definition computeValues (parameters : list TModelParameter)
    (savedValues : ModelParamValues) : JsObject :=
  foldl (addValue savedValues) emptyObject parameters.

(** What a render of the hook returns.  A callback is the value it passes
    to [setSavedValues]. *)
Record UseModelParamsResult : Type := {
  parameters : list TModelParameter;
  values : JsObject;
  updateParam : string → option Value → ModelParamValues;
  updateParams : ModelParamValues → ModelParamValues;
  resetToDefaults : ModelParamValues;
  hasParameters : bool;
  isLoading : bool
}.

Definition useModelParams (modelId : option string) (savedValues : ModelParamValues)
    (modelsData : option (ModelsResult TModelDetails)) (loading : bool)
    : UseModelParamsResult :=
  let modelDetails := modelDetailsOf modelId modelsData in
  let parameters := parametersOf modelDetails in
  {| parameters := parameters;
     values := computeValues parameters savedValues;
     (* { ...savedValues, [name]: value } *)
     updateParam := λ nm value, <[nm := value]> savedValues;
     (* { ...savedValues, ...params } *)
     updateParams := λ params, params ∪ savedValues;
     resetToDefaults := ∅;
     hasParameters := bool_decide (0 < length parameters);
     isLoading := loading |}.

(** [ModelParams], lines 229-239: the number of parameters whose value is
    not the default. *)
Definition countActive (values : JsObject) (count : nat)
    (param : TModelParameter) : nat :=
  let currentValue := getField values (param_name param) in
  let defaultValue := param_default_value param in
  if strictNe currentValue None && strictNe currentValue defaultValue
  then S count else count.

Definition activeParamsCount (h : UseModelParamsResult) : nat :=
  foldl (countActive (values h)) 0 (parameters h).

(** ** Vocabulary of the client properties *)

(** No parameter is named like a member of [Object.prototype]. *)
Definition plainNames (parameters : list TModelParameter) : Prop :=
  ∀ param, param ∈ parameters → inherited (param_name param) = false.

(** The parameter has a saved value that is not its default. *)
Definition changed (savedValues : ModelParamValues) (param : TModelParameter) : bool :=
  match getProp savedValues (param_name param) with
  | Some savedValue => strictNe (Some savedValue) (param_default_value param)
  | None => false
  end.

(** Every default value is equal to itself: no default is [NaN]. *)
Definition defaultsSelfEqual (parameters : list TModelParameter) : Prop :=
  ∀ param default_value, param ∈ parameters →
    param_default_value param = Some default_value →
    strictEq default_value default_value = true.

End Client.

(** * Scenarios

    Concrete collaborators and configurations on which the properties are
    exercised.  Model details are strings here. *)

Module Scenario.

(** A deployment in which configured values resolve to themselves, names
    are kept as they are, and ["user_provided"] is the placeholder of a
    value the user supplies. *)
Definition collaborators (config : option AppConfig)
    (fetch fetchDetails : FetchParams → Promise string)
    (defaults : Completion ModelsConfig) : Collaborators string :=
  {| extractEnvVariable := λ value, value;
     normalizeEndpointName := λ nm, nm;
     isUserProvided := λ value, bool_decide (value = "user_provided");
     azureOpenAI := "azureOpenAI";
     azureAssistants := "azureAssistants";
     MODELS_CONFIG := "modelsConfig";
     fetchModels := fetch;
     fetchModelsWithDetails := fetchDetails;
     getAppConfig := λ _, config;
     loadDefaultModels := λ _, defaults |}.

Definition endpoint (nm url key : string) (fetch : bool)
    (dflt : option (list TModelEntry)) : TEndpoint :=
  {| name := nm; baseURL := url; apiKey := key; headers := None;
     directEndpoint := false;
     models := Some {| models_fetch := fetch; models_default := dflt;
                       models_userIdQuery := false |} |}.

Definition customOnly (es : list TEndpoint) : option AppConfig :=
  Some {| endpoints_azureOpenAI := None; endpoints_custom := Some es |}.

Definition request : ServerRequest :=
  {| user := {| user_id := "u1"; user_role := Some "USER" |};
     query_includeDetails := None |}.

Definition detailedRequest : ServerRequest :=
  {| user := {| user_id := "u1"; user_role := Some "USER" |};
     query_includeDetails := Some "true" |}.

(** A fetch collaborator that resolves every call to [data]. *)
Definition always (data : FetchData string) : FetchParams → Promise string :=
  λ _, Fulfilled data.

(** A and B share baseURL and apiKey; the fetch returns two models. *)
Definition endpointA : TEndpoint := endpoint "A" "https://x" "K" true None.
Definition endpointB : TEndpoint := endpoint "B" "https://x" "K" true None.
Definition sharedKey : Collaborators string :=
  collaborators (customOnly [endpointA; endpointB])
    (always (DataList [ModelId "m1"; ModelId "m2"])) (always DataAbsent) (Normal ∅).

(** A and B share baseURL and apiKey and have defaults of their own; the
    fetch returns nothing. *)
Definition endpointA' : TEndpoint :=
  endpoint "A" "https://x" "K" true (Some [ModelId "a"]).
Definition endpointB' : TEndpoint :=
  endpoint "B" "https://x" "K" true (Some [ModelId "b"]).
Definition sharedKeyEmpty : Collaborators string :=
  collaborators (customOnly [endpointA'; endpointB'])
    (always (DataList [])) (always DataAbsent) (Normal ∅).

(** A and B share a baseURL and an apiKey that the user supplies. *)
Definition endpointA'' : TEndpoint :=
  endpoint "A" "https://x" "user_provided" true (Some [ModelId "a"]).
Definition endpointB'' : TEndpoint :=
  endpoint "B" "https://x" "user_provided" true (Some [ModelId "b"]).
Definition sharedUserKey : Collaborators string :=
  collaborators (customOnly [endpointA''; endpointB''])
    (always (DataList [ModelId "m1"; ModelId "m2"])) (always DataAbsent) (Normal ∅).

(** C fetches, the fetch returns the empty list, the default is [d1]. *)
Definition endpointC : TEndpoint :=
  endpoint "C" "https://c" "KC" true (Some [ModelId "d1"]).
Definition emptyFetch : Collaborators string :=
  collaborators (customOnly [endpointC]) (always (DataList [])) (always DataAbsent)
    (Normal ∅).

(** U asks for a fetch but its apiKey is supplied by the user. *)
Definition endpointU : TEndpoint :=
  endpoint "U" "https://u" "user_provided" true
    (Some [ModelSpec "m" (Some "a model"); ModelId "n"]).
Definition userProvided : Collaborators string :=
  collaborators (customOnly [endpointU; endpointC])
    (always (DataList [ModelId "c1"])) (always DataAbsent) (Normal ∅).

(** F fetches and S does not; both have the structured default entry
    [{ name: "m" }]; the fetch returns the empty list. *)
Definition endpointF : TEndpoint :=
  endpoint "F" "https://f" "KF" true (Some [ModelSpec "m" None]).
Definition endpointS : TEndpoint :=
  endpoint "S" "https://s" "KS" false (Some [ModelSpec "m" None]).
Definition structuredDefaults : Collaborators string :=
  collaborators (customOnly [endpointF; endpointS])
    (always (DataList [])) (always DataAbsent) (Normal ∅).

(** The fetch for C rejects. *)
Definition boom : JsError := {| message := "connect ECONNREFUSED" |}.
Definition failingFetch : Collaborators string :=
  collaborators (customOnly [endpointC]) (λ _, Rejected 7 boom) (λ _, Rejected 7 boom)
    (Normal {[ "openAI" := [ModelId "gpt-4o"] ]}).

(** The fetches for P1 and P2 both reject, that of P2 first. *)
Definition late : JsError := {| message := "socket hang up" |}.
Definition early : JsError := {| message := "getaddrinfo ENOTFOUND p2" |}.
Definition twoFailures : Collaborators string :=
  collaborators
    (customOnly [endpoint "P1" "https://p1" "K1" true None;
                 endpoint "P2" "https://p2" "K2" true None])
    (λ p, if bool_decide (fp_baseURL p = "https://p1")
          then Rejected 9 late else Rejected 3 early)
    (always DataAbsent) (Normal ∅).

(** A, B and C: three endpoints, two keys. *)
Definition threeEndpoints : Collaborators string :=
  collaborators
    (customOnly [endpoint "A" "https://x" "K" true None;
                 endpoint "C" "https://c" "KC" true (Some [ModelId "d1"]);
                 endpoint "B" "https://x" "K" true None])
    (always (DataList [ModelId "m1"])) (always DataAbsent) (Normal ∅).

(** No list of custom endpoints, Azure model names configured. *)
Definition azureOnly : Collaborators string :=
  collaborators
    (Some {| endpoints_azureOpenAI :=
               Some {| modelNames := Some [ModelId "gpt-4-azure"];
                       assistants := false; assistantModels := None |};
             endpoints_custom := None |})
    (always DataAbsent) (always DataAbsent)
    (Normal {[ "openAI" := [ModelId "gpt-4o"] ]}).

(** Neither custom endpoints nor Azure entries. *)
Definition defaultsOnly : Collaborators string :=
  collaborators
    (Some {| endpoints_azureOpenAI := None; endpoints_custom := None |})
    (always DataAbsent) (always DataAbsent)
    (Normal {[ "openAI" := [ModelId "gpt-4o"] ]}).

(** Two providers whose detailed results both describe the id ["shared"]. *)
Definition endpointP1 : TEndpoint := endpoint "P1" "https://p1" "K1" true None.
Definition endpointP2 : TEndpoint := endpoint "P2" "https://p2" "K2" true None.
Definition detailsOf (p : FetchParams) : FetchData string :=
  if bool_decide (fp_baseURL p = "https://p1")
  then DataDetailed (Some [ModelId "shared"]) (Some {[ "shared" := "from p1" ]})
  else DataDetailed (Some [ModelId "shared"]) (Some {[ "shared" := "from p2" ]}).
Definition twoProviders : Collaborators string :=
  collaborators (customOnly [endpointP1; endpointP2])
    (always DataAbsent) (λ p, Fulfilled (detailsOf p)) (Normal ∅).

(** Two endpoints with different addresses and credentials whose unique
    keys are the same string; each provider has a model of its own. *)
Definition endpointQ1 : TEndpoint := endpoint "Q1" "https://h/v1_" "k" true None.
Definition endpointQ2 : TEndpoint := endpoint "Q2" "https://h/v1" "_k" true None.
Definition modelsOf (p : FetchParams) : FetchData string :=
  if bool_decide (fp_baseURL p = "https://h/v1_" ∧ fp_apiKey p = "k")
  then DataList [ModelId "model-of-q1"]
  else DataList [ModelId "model-of-q2"].
Definition collidingKeys : Collaborators string :=
  collaborators (customOnly [endpointQ1; endpointQ2])
    (λ p, Fulfilled (modelsOf p)) (always DataAbsent) (Normal ∅).
(** U and S: no endpoint is fetched for; a fetch would reject. *)
Definition staticOnly : Collaborators string :=
  collaborators (customOnly [endpointU; endpointS])
    (λ _, Rejected 0 boom) (λ _, Rejected 0 boom) (Normal ∅).

(** The default provider throws. *)
Definition noDefaults : JsError := {| message := "defaults unavailable" |}.
Definition failingDefaults : Collaborators string :=
  collaborators (customOnly [endpointC]) (always (DataList [ModelId "c1"]))
    (always DataAbsent) (Throw noDefaults).

(** The default provider and the custom endpoints both know [A]; an
    endpoint without apiKey is declared too. *)
Definition endpointNoKey : TEndpoint := endpoint "N" "https://n" "" true None.
Definition overlapping : Collaborators string :=
  collaborators
    (Some {| endpoints_azureOpenAI :=
               Some {| modelNames := Some [ModelId "gpt-4-azure"];
                       assistants := false; assistantModels := None |};
             endpoints_custom := Some [endpointA; endpointNoKey; endpointB] |})
    (always (DataList [ModelId "m1"; ModelId "m2"])) (always DataAbsent)
    (Normal {[ "A" := [ModelId "old"]; "openAI" := [ModelId "gpt-4o"] ]}).

(** The two fetch collaborators report the same list for C. *)
Definition sameLists : Collaborators string :=
  collaborators (customOnly [endpointC; endpointS])
    (always (DataList [ModelId "c1"]))
    (always (DataDetailed (Some [ModelId "c1"]) (Some {[ "c1" := "details of c1" ]})))
    (Normal ∅).

(** Two endpoints are declared under the name [S]; neither is fetched
    for. *)
Definition endpointS' : TEndpoint :=
  endpoint "S" "https://t" "KT" false (Some [ModelId "t1"; ModelSpec "t2" None]).
Definition duplicateNames : Collaborators string :=
  collaborators (customOnly [endpointS; endpointS'])
    (always DataAbsent) (always DataAbsent) (Normal ∅).

(** ** Keys and names that are members of [Object.prototype] *)

(** A resolver that trims the configured value, as [extractEnvVariable]
    does before it looks for a variable reference. *)
Fixpoint trimStart (value : string) : string :=
  match value with
  | String c rest => if Ascii.eqb c (Ascii.ascii_of_nat 32) then trimStart rest else value
  | EmptyString => value
  end.
Definition trim (value : string) : string :=
  String.rev (trimStart (String.rev (trimStart value))).

Definition trimming (config : option AppConfig)
    (fetch fetchDetails : FetchParams → Promise string)
    (defaults : Completion ModelsConfig) : Collaborators string :=
  {| extractEnvVariable := trim;
     normalizeEndpointName := λ nm, nm;
     isUserProvided := λ value, bool_decide (value = "user_provided");
     azureOpenAI := "azureOpenAI";
     azureAssistants := "azureAssistants";
     MODELS_CONFIG := "modelsConfig";
     fetchModels := fetch;
     fetchModelsWithDetails := fetchDetails;
     getAppConfig := λ _, config;
     loadDefaultModels := λ _, defaults |}.

(** K is fetched for; its baseURL is a blank and its apiKey ["proto__"],
    which resolve to the unique key ["__proto__"]. *)
Definition endpointK : TEndpoint := endpoint "K" " " "proto__" true None.
Definition inheritedKey : Collaborators string :=
  trimming (customOnly [endpointK]) (always (DataList [ModelId "k1"]))
    (always DataAbsent) (Normal ∅).

(** The fetch for C rejects, and K is declared after C. *)
Definition maskedFailure : Collaborators string :=
  trimming (customOnly [endpointC; endpointK]) (λ _, Rejected 7 boom)
    (λ _, Rejected 7 boom) (Normal ∅).

(** An endpoint named ["__proto__"] that is fetched for; the fetch returns
    the empty list, the default is [d1]. *)
Definition endpointProto : TEndpoint :=
  endpoint "__proto__" "https://c" "KC" true (Some [ModelId "d1"]).
Definition protoNameEmptyFetch : Collaborators string :=
  collaborators (customOnly [endpointProto]) (always (DataList [])) (always DataAbsent)
    (Normal ∅).

(** An endpoint named ["__proto__"] whose apiKey is supplied by the user. *)
Definition endpointProtoUser : TEndpoint :=
  endpoint "__proto__" "https://u" "user_provided" true
    (Some [ModelSpec "m" (Some "a model"); ModelId "n"]).
Definition protoNameUserProvided : Collaborators string :=
  collaborators (customOnly [endpointProtoUser])
    (always (DataList [ModelId "c1"])) (always DataAbsent) (Normal ∅).

(** The endpoint that is fetched for is named ["__proto__"]; it and S have
    the structured default entry [{ name: "m" }]; the fetch returns the
    empty list. *)
Definition endpointProtoF : TEndpoint :=
  endpoint "__proto__" "https://f" "KF" true (Some [ModelSpec "m" None]).
Definition protoNameStructured : Collaborators string :=
  collaborators (customOnly [endpointProtoF; endpointS])
    (always (DataList [])) (always DataAbsent) (Normal ∅).

(** Two providers whose detailed results both describe the id
    ["__proto__"]. *)
Definition protoDetailsOf (p : FetchParams) : FetchData string :=
  if bool_decide (fp_baseURL p = "https://p1")
  then DataDetailed (Some [ModelId "__proto__"]) (Some {[ "__proto__" := "from p1" ]})
  else DataDetailed (Some [ModelId "__proto__"]) (Some {[ "__proto__" := "from p2" ]}).
Definition protoDetails : Collaborators string :=
  collaborators (customOnly [endpointP1; endpointP2])
    (always DataAbsent) (λ p, Fulfilled (protoDetailsOf p)) (Normal ∅).

End Scenario.

(** * A model with parameters

    The values of the example are booleans, integers and strings, equal
    when they are the same, and the members of [Object.prototype]. *)

Module ClientScenario.

Inductive value : Type :=
| Boolean (b : bool)
| Number (n : Z)
| Text (s : string)
| Member (k : string).

#[export] Instance value_eq_dec : EqDecision value.
Proof. solve_decision. Defined.

Definition sameValue (a b : value) : bool := bool_decide (a = b).

Definition kindOfValue (v : value) : Kind :=
  match v with
  | Member _ => Object
  | _ => Primitive
  end.

(** Read through a member of [Object.prototype], a name finds the members
    of [Object.prototype]. *)
Definition throughMember (p : value) (k : string) : option value :=
  if inherited k then Some (Member k) else None.

Definition temperature : TModelParameter value :=
  {| param_name := "temperature"; param_description := Some "sampling temperature";
     param_default_value := Some (Number 1) |}.
Definition stream : TModelParameter value :=
  {| param_name := "stream"; param_description := None;
     param_default_value := Some (Boolean false) |}.
Definition effort : TModelParameter value :=
  {| param_name := "effort"; param_description := None;
     param_default_value := None |}.

(** The data of the models query: a model with three parameters, and a
    model whose one parameter is named ["toString"]. *)
Definition toStringParam : TModelParameter value :=
  {| param_name := "toString"; param_description := None;
     param_default_value := Some (Number 1) |}.
Definition modelsData : option (ModelsResult (TClientModelDetails value)) :=
  Some (Detailed {[ "P" := [ModelId "gpt"; ModelId "odd"] ]}
          {[ "gpt" := {| details_parameters := Some [temperature; stream; effort] |};
             "odd" := {| details_parameters := Some [toStringParam] |} ]}).

(** What is saved for the model: a temperature, and a value for a
    parameter the model no longer has. *)
Definition saved : gmap string (option value) :=
  {[ "temperature" := Some (Number 2); "stale" := Some (Text "x") ]}.

Definition hook (modelId : string) (savedValues : gmap string (option value))
    : UseModelParamsResult (Value := value) :=
  useModelParams Member kindOfValue (Some modelId) savedValues modelsData false.

Definition render : gmap string (option value) → UseModelParamsResult (Value := value) :=
  hook "gpt".

End ClientScenario.

(** * Facts about the embedding *)

Section OrderedObjectFacts.
Context {V : Type}.
Implicit Types (obj : list (string * V)) (k : string) (v : V).

Lemma alookup_None k obj : alookup k obj = None ↔ k ∉ obj.*1.
Proof.
  induction obj as [|[k' v'] obj IH]; simpl.
  - split; [intros _; apply not_elem_of_nil | done].
  - rewrite not_elem_of_cons. destruct (decide (k' = k)) as [->|Hne].
    + split; [done | intros [[] _]; done].
    + rewrite IH. split; [by intros ?; split; [congruence|] | by intros [_ ?]].
Qed.

Lemma aset_same k v obj : alookup k obj = Some v → aset k v obj = obj.
Proof.
  induction obj as [|[k' v'] obj IH]; simpl; [done|].
  destruct (decide (k' = k)) as [->|Hne].
  - by intros [= ->].
  - intros Hl. by rewrite IH.
Qed.

Lemma aset_new k v obj : alookup k obj = None → aset k v obj = obj ++ [(k, v)].
Proof.
  induction obj as [|[k' v'] obj IH]; simpl; [done|].
  destruct (decide (k' = k)) as [->|Hne]; [done|].
  intros Hl. by rewrite IH.
Qed.

Lemma alookup_NoDup k v obj : NoDup obj.*1 → (k, v) ∈ obj → alookup k obj = Some v.
Proof.
  induction obj as [|[k' v'] obj IH]; simpl.
  - intros _ Hin. by apply elem_of_nil in Hin.
  - rewrite NoDup_cons. intros [Hk Hnd] Hin.
    apply elem_of_cons in Hin as [[= <- <-]|Hin].
    + by rewrite decide_True.
    + rewrite decide_False; [auto|].
      intros ->. apply Hk. apply list_elem_of_fmap. by exists (k, v).
Qed.
End OrderedObjectFacts.

Section ObjectFacts.
Context {V : Type}.
Implicit Types (obj : gmap string V) (k : string) (v : V).

Lemma lookup_setProperty_eq k v obj :
  k ≠ "__proto__" → setProperty k v obj !! k = Some v.
Proof. intros Hk. unfold setProperty. rewrite decide_False by done. apply lookup_insert_eq. Qed.

Lemma lookup_setProperty_ne k k' v obj :
  k ≠ k' → setProperty k v obj !! k' = obj !! k'.
Proof. intros Hk. unfold setProperty. case_decide; [done|]. by apply lookup_insert_ne. Qed.

Lemma lookup_setProperty_proto k v obj :
  setProperty k v obj !! "__proto__" = obj !! "__proto__".
Proof. unfold setProperty. case_decide; [done|]. by apply lookup_insert_ne. Qed.

Lemma setProperty_twice k v v' obj :
  setProperty k v (setProperty k v' obj) = setProperty k v obj.
Proof. unfold setProperty. case_decide; [done|]. apply insert_insert_eq. Qed.


Lemma Object_assign_twice (target source : gmap string V) :
  Object_assign (Object_assign target source) source = Object_assign target source.
Proof. unfold Object_assign. by rewrite (assoc_L (∪)), (idemp_L (∪)). Qed.

Lemma Object_assign_empty (target : gmap string V) : Object_assign target ∅ = target.
Proof. unfold Object_assign. by rewrite delete_empty, (left_id_L ∅ (∪)). Qed.
End ObjectFacts.

Section ResolutionFacts.
Context {TModelDetails : Type} `{!Collaborators TModelDetails}.

#[local] Abbreviation M := (M TModelDetails).
#[local] Abbreviation Promise := (Promise TModelDetails).
#[local] Abbreviation FetchData := (FetchData TModelDetails).
#[local] Abbreviation ModelsResult := (ModelsResult TModelDetails).
#[local] Abbreviation World := (World TModelDetails).
#[local] Abbreviation Registry := (@Registry TModelDetails).

Implicit Types (w : World) (st : Registry) (e : TEndpoint) (es : list TEndpoint)
  (req : ServerRequest) (d : bool) (k nm : string).

Lemma recordFetches_nil w : recordFetches [] w = w.
Proof. destruct w. unfold recordFetches. simpl. by rewrite app_nil_r. Qed.

Lemma recordFetches_app (a b : list FetchParams) w :
  recordFetches b (recordFetches a w) = recordFetches (a ++ b) w.
Proof. unfold recordFetches. simpl. by rewrite app_assoc. Qed.

Lemma eligible_models e : eligible e = true → ∃ m, models e = Some m.
Proof.
  unfold eligible. destruct (models e) as [m|]; [eauto|].
  rewrite andb_false_r. done.
Qed.

Lemma requiresFetch_models e :
  requiresFetch e = true → ∃ m, models e = Some m ∧ fetchable m e = true.
Proof. unfold requiresFetch. destruct (models e); [eauto | done]. Qed.

Lemma callKey_fetchParamsOf req e : callKey (fetchParamsOf req e) = uniqueKey e.
Proof. reflexivity. Qed.

Lemma fetchKeys_cons e es :
  fetchKeys (e :: es) =
  if requiresFetch e then uniqueKey e :: fetchKeys es else fetchKeys es.
Proof.
  unfold fetchKeys. rewrite filter_cons.
  destruct (requiresFetch e); by case_decide.
Qed.

Lemma groupNames_cons k e es :
  groupNames k (e :: es) =
  if requiresFetch e && bool_decide (uniqueKey e = k)
  then endpointName e :: groupNames k es else groupNames k es.
Proof.
  unfold groupNames. rewrite filter_cons.
  destruct (decide (requiresFetch e = true ∧ uniqueKey e = k)) as [[Hr Hk]|Hn].
  - by rewrite Hr, bool_decide_true.
  - destruct (requiresFetch e); [simpl|done].
    rewrite bool_decide_false; [done|]. intros ?. by apply Hn.
Qed.

Lemma lastNamed_cons nm e es :
  lastNamed nm (e :: es) =
  match lastNamed nm es with
  | Some e' => Some e'
  | None => if decide (endpointName e = nm) then Some e else None
  end.
Proof.
  unfold lastNamed. rewrite filter_cons.
  case_decide; [|by destruct (last _)].
  rewrite last_cons. by destruct (last _).
Qed.

Lemma forEach_cons {A S : Type} (body : S → A → M S) x l (s : S) w :
  forEach body (x :: l) s w =
  match body s x w with
  | (Normal s', w') => forEach body l s' w'
  | (Throw err, w') => (Throw err, w')
  end.
Proof. reflexivity. Qed.

Lemma firstFetchers_cons seen e es :
  firstFetchers seen (e :: es) =
  if requiresFetch e && bool_decide (uniqueKey e ∉ seen)
  then e :: firstFetchers (seen ++ [uniqueKey e]) es
  else firstFetchers seen es.
Proof. reflexivity. Qed.

(** The three ways the body of the first loop ends. *)
Lemma registerEndpoint_static req d st e w :
  eligible e = true → requiresFetch e = false →
  registerEndpoint req d st e w =
  (Normal {| modelsConfig := setProperty (endpointName e) (staticModels e) (modelsConfig st);
             allModelDetails := allModelDetails st;
             fetchPromisesMap := fetchPromisesMap st;
             uniqueKeyToEndpointsMap := uniqueKeyToEndpointsMap st;
             endpointsMap := <[endpointName e := e]> (endpointsMap st) |}, w).
Proof.
  intros [m Hm]%eligible_models. unfold requiresFetch, registerEndpoint.
  rewrite Hm. intros Hf. simpl. unfold mbind, M_bind, mret, M_ret. simpl.
  rewrite Hf. unfold staticModels, configuredDefault, endpointName. rewrite Hm. simpl.
  destruct (models_default m); simpl; [by rewrite setProperty_twice | done].
Qed.

Lemma registerEndpoint_throws req d st e w :
  requiresFetch e = true → inherited (uniqueKey e) = true →
  uniqueKeyToEndpointsMap st !! uniqueKey e = None →
  registerEndpoint req d st e w = (Throw notAFunction, w).
Proof.
  intros (m & Hm & Hf)%requiresFetch_models Hinh Hnone. unfold registerEndpoint.
  rewrite Hm. simpl. unfold mbind, M_bind, mret, M_ret. simpl.
  by rewrite Hf, Hnone, Hinh.
Qed.

Lemma registerEndpoint_fetching req d st e w :
  requiresFetch e = true → inherited (uniqueKey e) = false →
  registerEndpoint req d st e w =
  (Normal {| modelsConfig := setProperty (endpointName e) [] (modelsConfig st);
             allModelDetails := allModelDetails st;
             fetchPromisesMap :=
               match alookup (uniqueKey e) (fetchPromisesMap st) with
               | Some _ => fetchPromisesMap st
               | None => fetchPromisesMap st ++
                           [(uniqueKey e, fetchFn d (fetchParamsOf req e))]
               end;
             uniqueKeyToEndpointsMap :=
               <[uniqueKey e := default [] (uniqueKeyToEndpointsMap st !! uniqueKey e)
                                  ++ [endpointName e]]> (uniqueKeyToEndpointsMap st);
             endpointsMap := <[endpointName e := e]> (endpointsMap st) |},
   match alookup (uniqueKey e) (fetchPromisesMap st) with
   | Some _ => w
   | None => recordFetches [fetchParamsOf req e] w
   end).
Proof.
  intros (m & Hm & Hf)%requiresFetch_models Hinh. unfold registerEndpoint.
  rewrite Hm. simpl. unfold mbind, M_bind, mret, M_ret. simpl. rewrite Hf, Hinh.
  unfold fetchParamsOf. rewrite Hm. simpl.
  destruct (uniqueKeyToEndpointsMap st !! uniqueKey e) as [names|];
    destruct (alookup _ _) as [p|] eqn:Hl; simpl;
    by rewrite ?(aset_same _ _ _ Hl), ?(aset_new _ _ _ Hl).
Qed.

Lemma groupNames_not_fetched k es : k ∉ fetchKeys es → groupNames k es = [].
Proof.
  induction es as [|e es IH]; [done|].
  rewrite fetchKeys_cons, groupNames_cons.
  destruct (requiresFetch e); simpl; [|done].
  rewrite not_elem_of_cons. intros [Hne Hk].
  rewrite bool_decide_false by done. auto.
Qed.

(** The lookups of the first loop's maps after one more endpoint. *)
Ltac last_lookup IH Hrf :=
  let nm := fresh "nm" in
  intros nm; rewrite IH, lastNamed_cons;
  destruct (lastNamed nm _); [done|];
  case_decide; [subst; by rewrite lookup_insert_eq, ?Hrf | by rewrite lookup_insert_ne].

Ltac list_lookup IH Hrf :=
  let nm := fresh "nm" in
  let Hp := fresh "Hp" in
  intros nm; rewrite IH, lastNamed_cons; simpl;
  destruct (lastNamed nm _);
  [ case_decide; [subst; by rewrite lookup_setProperty_proto | done] |];
  case_decide;
  [ subst nm; case_decide as Hp;
    [ by rewrite Hp, lookup_setProperty_proto
    | by rewrite lookup_setProperty_eq, ?Hrf by done ]
  | by rewrite lookup_setProperty_ne ].

Ltac group_lookup IH Hrf :=
  let k := fresh "k" in
  intros k; rewrite IH, fetchKeys_cons, groupNames_cons, Hrf; simpl;
  match goal with
  | |- context [decide (k ∈ uniqueKey ?e :: _)] =>
      destruct (decide (uniqueKey e = k)) as [<-|?];
      [ rewrite lookup_insert_eq, bool_decide_true by done; simpl;
        rewrite (decide_True (P := _ ∈ _ :: _)) by apply list_elem_of_here;
        case_decide;
        [ by rewrite <-app_assoc
        | by erewrite groupNames_not_fetched by eassumption ]
      | rewrite lookup_insert_ne, bool_decide_false by done;
        destruct (decide (k ∈ fetchKeys _));
        [ by rewrite decide_True by (by apply list_elem_of_further)
        | by rewrite decide_False by (intros [?|?]%elem_of_cons; congruence) ] ]
  | _ => done
  end.

Lemma registerAll req d es :
  Forall (λ e, eligible e = true) es → Forall (λ e, blocks e = false) es → ∀ st w,
  ∃ st', forEach (registerEndpoint req d) es st w =
           (Normal st',
            recordFetches (fetchParamsOf req <$> firstFetchers (fetchPromisesMap st).*1 es) w)
         ∧ registered req d es st st'.
Proof.
  induction 1 as [|e es He Hes IH]; intros Hplain st w.
  - exists st. simpl. rewrite recordFetches_nil. split; [done|].
    unfold registered. simpl. rewrite app_nil_r. by split_and!.
  - apply Forall_cons in Hplain as [Hinh Hplain]. specialize (IH Hplain).
    unfold blocks in Hinh.
    unfold registered. rewrite forEach_cons, firstFetchers_cons.
    destruct (requiresFetch e) eqn:Hrf; simpl in Hinh |- *.
    + rewrite (registerEndpoint_fetching _ _ _ _ _ Hrf Hinh).
      destruct (alookup (uniqueKey e) (fetchPromisesMap st)) as [p|] eqn:Hl.
      * rewrite bool_decide_false; last first.
        { intros Hn. apply alookup_None in Hn. congruence. }
        match goal with |- context [forEach _ es ?s w] =>
          destruct (IH s w) as (st' & Hrun & Hfpm & Hmd & Hgr & Hem & Hmc) end.
        simpl in *. exists st'. split; [done|].
        split_and!; [done | done | group_lookup Hgr Hrf
                    | last_lookup Hem Hrf | list_lookup Hmc Hrf].
      * rewrite bool_decide_true by (by apply alookup_None).
        match goal with |- context [forEach _ es ?s ?w1] =>
          destruct (IH s w1) as (st' & Hrun & Hfpm & Hmd & Hgr & Hem & Hmc) end.
        simpl in *. rewrite fmap_app in Hrun, Hfpm. simpl in *.
        exists st'. split; [by rewrite Hrun, recordFetches_app|].
        split_and!; [by rewrite Hfpm, <-app_assoc | done | group_lookup Hgr Hrf
                    | last_lookup Hem Hrf | list_lookup Hmc Hrf].
    + rewrite (registerEndpoint_static _ _ _ _ _ He Hrf).
      match goal with |- context [forEach _ es ?s w] =>
        destruct (IH s w) as (st' & Hrun & Hfpm & Hmd & Hgr & Hem & Hmc) end.
      simpl in *. exists st'. split; [done|].
      split_and!; [done | done | group_lookup Hgr Hrf
                  | last_lookup Hem Hrf | list_lookup Hmc Hrf].
Qed.

(** The body of the inner loop, when the endpoint of the name is known. *)
Lemma distribute_step d (data : FetchData) st nm e w :
  endpointsMap st !! nm = Some e → is_Some (models e) →
  distribute d data st nm w =
  (Normal {| modelsConfig := setProperty nm (mergedModels d data e) (modelsConfig st);
             allModelDetails := Object_assign (allModelDetails st) (fetchedDetails d data);
             fetchPromisesMap := fetchPromisesMap st;
             uniqueKeyToEndpointsMap := uniqueKeyToEndpointsMap st;
             endpointsMap := endpointsMap st |}, w).
Proof.
  intros He [m Hm].
  assert (Hdef : ∀ l, assignModels st nm l w =
            (Normal (setProperty nm match l with
                                    | Some (x :: l') => x :: l'
                                    | _ => configuredDefault e
                                    end (modelsConfig st)), w)).
  { intros l. unfold assignModels, defaultModels, configuredDefault.
    unfold mbind at 1 2 3, M_bind, mret, M_ret. rewrite He. simpl. rewrite Hm. simpl.
    by destruct l as [[|x l']|]. }
  unfold distribute, mergedModels, fetchedDetails, fetchedList.
  destruct d, data as [|l|ml [md|]]; unfold mbind, M_bind, mret, M_ret;
    rewrite Hdef; simpl; rewrite ?Object_assign_empty; done.
Qed.

Lemma distributeNames d (data : FetchData) names : ∀ st w,
  namesKnown st names →
  ∃ st', forEach (distribute d data) names st w = (Normal st', w)
    ∧ sameMaps st st'
    ∧ allModelDetails st' =
        (if names is [] then allModelDetails st
         else Object_assign (allModelDetails st) (fetchedDetails d data))
    ∧ ∀ nm, modelsConfig st' !! nm =
            if decide (nm ∈ names ∧ nm ≠ "__proto__")
            then mergedModels d data <$> endpointsMap st !! nm
            else modelsConfig st !! nm.
Proof.
  induction names as [|n names IH]; intros st w Hk.
  - exists st. split_and!; try done.
  - destruct (Hk n) as (e & He & Hm); [apply list_elem_of_here|].
    rewrite forEach_cons, (distribute_step _ _ _ _ _ _ He Hm).
    match goal with |- context [forEach _ names ?s w] =>
      destruct (IH s w) as (st' & Hrun & (Hem & Hgr & Hfpm) & Hmd & Hmc) end.
    { intros nm Hnm. apply Hk. by apply list_elem_of_further. }
    simpl in *. exists st'. split; [done|]. split; [done|]. split.
    + rewrite Hmd. destruct names; [done|]. apply Object_assign_twice.
    + intros nm. rewrite Hmc.
      destruct (decide (nm = "__proto__")) as [->|Hp].
      { rewrite !decide_False by (by intros [_ ?]). apply lookup_setProperty_proto. }
      destruct (decide (nm = n)) as [->|Hne].
      * rewrite (decide_True (P := _ ∈ _ :: _ ∧ _))
          by (split; [apply list_elem_of_here | done]).
        case_decide; [done|]. by rewrite lookup_setProperty_eq, He.
      * rewrite lookup_setProperty_ne by done.
        destruct (decide (nm ∈ names)).
        -- rewrite !decide_True; [done | | done].
           split; [by apply list_elem_of_further | done].
        -- rewrite !decide_False; [done | | by intros [? _]].
           intros [[?|?]%elem_of_cons _]; congruence.
Qed.

Lemma distributeGroups d gs : ∀ st w,
  groupsKnown st gs →
  ∃ st', forEach (distributeGroup d) gs st w = (Normal st', w)
    ∧ sameMaps st st'
    ∧ allModelDetails st' =
        foldl (λ acc g, Object_assign acc (fetchedDetails d g.2)) (allModelDetails st) gs
    ∧ (∀ nm, nm = "__proto__" ∨ (∀ g, g ∈ gs → ¬ inGroup st nm g) →
             modelsConfig st' !! nm = modelsConfig st !! nm)
    ∧ (∀ nm g, nm ≠ "__proto__" → g ∈ gs → inGroup st nm g →
               (∀ g', g' ∈ gs → inGroup st nm g' → g'.2 = g.2) →
               modelsConfig st' !! nm = mergedModels d g.2 <$> endpointsMap st !! nm).
Proof.
  induction gs as [|g gs IH]; intros st w Hk.
  - exists st. split_and!; try done. intros nm g _ Hg. by apply elem_of_nil in Hg.
  - destruct (Hk g) as (names & Hnames & Hne & Hkn); [apply list_elem_of_here|].
    rewrite forEach_cons. unfold distributeGroup at 1.
    unfold mbind, M_bind. rewrite Hnames. simpl.
    destruct (distributeNames d g.2 names st w Hkn)
      as (st1 & -> & (Hem1 & Hgr1 & Hfpm1) & Hmd1 & Hmc1).
    destruct (IH st1 w) as (st' & Hrun & (Hem & Hgr & Hfpm) & Hmd & Hout & Hin).
    { intros g' Hg'. destruct (Hk g') as (ns & ? & ? & Hns); [by apply list_elem_of_further|].
      exists ns. rewrite Hgr1. split_and!; try done.
      intros nm Hnm. rewrite Hem1. by apply Hns. }
    exists st'. split; [done|]. split.
    { unfold sameMaps. by rewrite Hem, Hgr, Hfpm. }
    assert (Hsame : ∀ nm g', inGroup st1 nm g' ↔ inGroup st nm g').
    { intros nm g'. unfold inGroup. by rewrite Hgr1. }
    assert (Hhere : ∀ nm, inGroup st nm g ↔ nm ∈ names).
    { intros nm. unfold inGroup. by rewrite Hnames. }
    split; [|split].
    + simpl. rewrite Hmd, Hmd1. by destruct names.
    + intros nm [->|Hno].
      * rewrite Hout by (by left). rewrite Hmc1, decide_False; [done | by intros [_ ?]].
      * rewrite Hout.
        -- rewrite Hmc1, decide_False; [done|]. intros [Hn _].
           apply (Hno g); [apply list_elem_of_here | by apply Hhere].
        -- right. intros g' Hg'. rewrite Hsame. by apply Hno, list_elem_of_further.
    + intros nm g0 Hp Hg0 Hnm Huniq.
      destruct (decide (Exists (λ g', nm ∈ default [] (uniqueKeyToEndpointsMap st !! g'.1)) gs))
        as [Hex|Hnex].
      * apply Exists_exists in Hex as (g1 & Hg1 & Hnm1).
        rewrite (Hin nm g1), Hem1; [| done | done | by apply Hsame |].
        -- rewrite (Huniq g1); [done | by apply list_elem_of_further | done].
        -- intros g' Hg' Hnm'%Hsame.
           rewrite (Huniq g'), (Huniq g1); try done; by apply list_elem_of_further.
      * rewrite Hout.
        -- apply elem_of_cons in Hg0 as [->|Hg0].
           ++ rewrite Hmc1, decide_True; [done|]. split; [by apply Hhere | done].
           ++ exfalso. apply Hnex, Exists_exists. by exists g0.
        -- right. intros g' Hg' Hnm'%Hsame. apply Hnex, Exists_exists. by exists g'.
Qed.

Lemma bind_run {A B} (m : M A) (f : A → M B) w :
  (m ≫= f) w =
  match m w with
  | (Normal a, w') => f a w'
  | (Throw err, w') => (Throw err, w')
  end.
Proof. reflexivity. Qed.

(** *** [Promise.all] *)

Lemma firstRejection_None (ps : list Promise) :
  firstRejection ps = None → ps = Fulfilled <$> fulfilledValues ps.
Proof.
  induction ps as [|[data|t e] ps IH]; simpl; [done|..].
  - intros Hnone. f_equal. by apply IH.
  - by destruct (firstRejection ps) as [[t' e']|]; [case_decide|].
Qed.

Lemma firstRejection_fulfilled (datas : list FetchData) :
  firstRejection (Fulfilled <$> datas) = None ∧
  fulfilledValues (Fulfilled <$> datas) = datas.
Proof.
  induction datas as [|data datas [IH1 IH2]]; [done|].
  rewrite fmap_cons. cbn [firstRejection fulfilledValues]. by rewrite IH1, IH2.
Qed.

Lemma firstRejection_Some (ps : list Promise) t err :
  firstRejection ps = Some (t, err) →
  Rejected t err ∈ ps ∧ ∀ t' err', Rejected t' err' ∈ ps → (t ≤ t')%nat.
Proof.
  revert t err. induction ps as [|[data|t0 e0] ps IH]; intros t err; simpl; [done|..].
  - intros [Hin Hmin]%IH. split; [by apply list_elem_of_further|].
    intros t' e' [?|?]%elem_of_cons; [done | eauto].
  - destruct (firstRejection ps) as [[t1 e1]|] eqn:Hrest.
    + destruct (IH t1 e1 eq_refl) as [Hin Hmin]. case_decide as Hlt; intros [= <- <-].
      * split; [by apply list_elem_of_further|].
        intros t' e' [[= -> ->]|?]%elem_of_cons; [lia | eauto].
      * split; [apply list_elem_of_here|].
        intros t' e' [[= -> ->]|Hin']%elem_of_cons; [done|].
        apply Hmin in Hin'. lia.
    + intros [= <- <-]. split; [apply list_elem_of_here|].
      intros t' e' [[= -> ->]|Hin']%elem_of_cons; [done|].
      exfalso. clear IH. induction ps as [|[data|t2 e2] ps IHps]; simpl in *.
      * by apply elem_of_nil in Hin'.
      * apply elem_of_cons in Hin' as [?|?]; [done | auto].
      * by destruct (firstRejection ps) as [[? ?]|]; [case_decide|].
Qed.

Lemma firstRejection_is_Some (ps : list Promise) t err :
  Rejected t err ∈ ps → is_Some (firstRejection ps).
Proof.
  induction ps as [|[data|t0 e0] ps IH]; simpl; intros Hin.
  - by apply elem_of_nil in Hin.
  - apply elem_of_cons in Hin as [?|?]; [done | auto].
  - destruct (firstRejection ps) as [[t1 e1]|]; [case_decide|]; eauto.
Qed.

Lemma Promise_all_Normal (ps : list Promise) datas :
  Promise_all ps = Normal datas ↔ ps = Fulfilled <$> datas.
Proof.
  unfold Promise_all. split.
  - destruct (firstRejection ps) as [[t e]|] eqn:Hfirst; [done|].
    intros [= <-]. by apply firstRejection_None.
  - intros ->. destruct (firstRejection_fulfilled datas) as [-> ->]. done.
Qed.

(** The error [Promise.all] throws is that of a rejected promise, and no
    promise rejects before it. *)
Lemma Promise_all_Throw (ps : list Promise) err :
  Promise_all ps = Throw err →
  ∃ t, Rejected t err ∈ ps ∧ ∀ t' err', Rejected t' err' ∈ ps → (t ≤ t')%nat.
Proof.
  unfold Promise_all. destruct (firstRejection ps) as [[t e]|] eqn:Hfirst; [|done].
  intros [= <-]. exists t. by apply firstRejection_Some.
Qed.

Lemma Promise_all_rejected (ps : list Promise) t err :
  Rejected t err ∈ ps → ∃ err', Promise_all ps = Throw err'.
Proof.
  intros [[t' err'] Hfirst]%firstRejection_is_Some.
  exists err'. unfold Promise_all. by rewrite Hfirst.
Qed.

Lemma Promise_all_fulfilled (ps : list Promise) :
  (∀ p, p ∈ ps → ∃ data, p = Fulfilled data) → ∃ datas, Promise_all ps = Normal datas.
Proof.
  intros Hall. destruct (Promise_all ps) as [datas|err] eqn:Hp; [eauto|].
  apply Promise_all_Throw in Hp as (t & [? ?]%Hall & _). done.
Qed.

(** *** First fetchers and first-seen keys *)

Lemma firstFetchers_elem seen e es :
  e ∈ firstFetchers seen es →
  e ∈ es ∧ requiresFetch e = true ∧ uniqueKey e ∉ seen.
Proof.
  revert seen. induction es as [|e' es IH]; intros seen; simpl.
  - intros Hin. by apply elem_of_nil in Hin.
  - destruct (requiresFetch e') eqn:Hrf; simpl.
    + case_bool_decide as Hk.
      * intros [->|Hin]%elem_of_cons.
        -- split_and!; [apply list_elem_of_here | done | done].
        -- apply IH in Hin as (? & ? & Hn). split_and!; [by apply list_elem_of_further|done|].
           intros ?. apply Hn. apply elem_of_app. by left.
      * intros (? & ? & ?)%IH. split_and!; [by apply list_elem_of_further|done..].
    + intros (? & ? & ?)%IH. split_and!; [by apply list_elem_of_further|done..].
Qed.

Lemma firstFetchers_keys seen es :
  uniqueKey <$> firstFetchers seen es = firstSeen seen (fetchKeys es).
Proof.
  revert seen. induction es as [|e es IH]; intros seen; [done|].
  rewrite firstFetchers_cons, fetchKeys_cons.
  destruct (requiresFetch e); simpl; [|done].
  case_bool_decide; simpl; by rewrite IH.
Qed.

Lemma firstSeen_elem seen ks k : k ∈ firstSeen seen ks ↔ k ∈ ks ∧ k ∉ seen.
Proof.
  revert seen. induction ks as [|k' ks IH]; intros seen; simpl.
  - split; [intros Hk | intros [Hk _]]; by apply elem_of_nil in Hk.
  - case_bool_decide as Hk; rewrite ?elem_of_cons, IH, ?elem_of_app, ?list_elem_of_singleton.
    + destruct (decide (k = k')) as [->|Hne]; [tauto|]. intuition congruence.
    + destruct (decide (k = k')) as [->|Hne]; [tauto|]. intuition congruence.
Qed.

Lemma firstSeen_NoDup seen ks : NoDup (firstSeen seen ks).
Proof.
  revert seen. induction ks as [|k ks IH]; intros seen; simpl; [constructor|].
  case_bool_decide; [|done]. constructor; [|done].
  rewrite firstSeen_elem. intros [_ Hn]. apply Hn, elem_of_app. right.
  apply list_elem_of_here.
Qed.

Lemma firstSeen_length ks :
  length (firstSeen [] ks) = size (list_to_set ks : gset string).
Proof.
  rewrite <-(size_list_to_set (C := gset string) (firstSeen [] ks))
    by apply firstSeen_NoDup.
  f_equal. apply set_eq. intros k.
  rewrite !elem_of_list_to_set, firstSeen_elem.
  split; [by intros [? _] | intros ?; split; [done | apply not_elem_of_nil]].
Qed.

(** *** Names and groups *)

Lemma fetchKeys_elem k es :
  k ∈ fetchKeys es ↔ ∃ e, e ∈ es ∧ requiresFetch e = true ∧ uniqueKey e = k.
Proof.
  unfold fetchKeys. rewrite list_elem_of_fmap. split.
  - intros (e & -> & [? ?]%list_elem_of_filter). eauto.
  - intros (e & ? & ? & <-). exists e. split; [done|]. by apply list_elem_of_filter.
Qed.

Lemma groupNames_elem nm k es :
  nm ∈ groupNames k es ↔
  ∃ e, e ∈ es ∧ requiresFetch e = true ∧ uniqueKey e = k ∧ endpointName e = nm.
Proof.
  unfold groupNames. rewrite list_elem_of_fmap. split.
  - intros (e & -> & [[? ?] ?]%list_elem_of_filter). eauto 6.
  - intros (e & ? & ? & ? & <-). exists e. split; [done|]. by apply list_elem_of_filter.
Qed.

Lemma lastNamed_elem nm es e : lastNamed nm es = Some e → e ∈ es ∧ endpointName e = nm.
Proof.
  unfold lastNamed. intros [? ?]%last_Some_elem_of%list_elem_of_filter. done.
Qed.

Lemma lastNamed_is_Some nm es : nm ∈ endpointName <$> es → is_Some (lastNamed nm es).
Proof.
  intros (e & -> & He)%list_elem_of_fmap. unfold lastNamed. apply last_is_Some.
  intros Hnil. assert (Hin : e ∈ filter (λ e', endpointName e' = endpointName e) es)
    by (by apply list_elem_of_filter).
  rewrite Hnil in Hin. by apply elem_of_nil in Hin.
Qed.

Lemma names_inj es e e' :
  NoDup (endpointName <$> es) → e ∈ es → e' ∈ es →
  endpointName e = endpointName e' → e = e'.
Proof.
  induction es as [|x es IH]; simpl.
  - intros _ He. by apply elem_of_nil in He.
  - rewrite NoDup_cons. intros [Hx Hnd] [->|He]%elem_of_cons [->|He']%elem_of_cons Heq;
      [done|..|by apply IH].
    + exfalso. apply Hx. rewrite Heq. apply list_elem_of_fmap. eauto.
    + exfalso. apply Hx. rewrite <-Heq. apply list_elem_of_fmap. eauto.
Qed.

Lemma lastNamed_unique es e :
  NoDup (endpointName <$> es) → e ∈ es → lastNamed (endpointName e) es = Some e.
Proof.
  intros Hnd He.
  destruct (lastNamed_is_Some (endpointName e) es) as [e' He'].
  { apply list_elem_of_fmap. eauto. }
  rewrite He'. f_equal. apply lastNamed_elem in He' as [? ?].
  by apply (names_inj es).
Qed.

(** *** Keys and results side by side *)

Lemma zip_fulfilled_elem d req (ff : list TEndpoint) datas g :
  fetchFn d <$> (fetchParamsOf req <$> ff) = Fulfilled <$> datas →
  g ∈ zip (uniqueKey <$> ff) datas →
  ∃ e, e ∈ ff ∧ g.1 = uniqueKey e ∧ fetchFn d (fetchParamsOf req e) = Fulfilled g.2.
Proof.
  revert datas. induction ff as [|e ff IH]; intros [|data datas]; simpl; try done.
  - intros _ Hin. by apply elem_of_nil in Hin.
  - intros [= Hp Hrest] [->|Hin]%elem_of_cons.
    + exists e. split_and!; [apply list_elem_of_here|done..].
    + destruct (IH _ Hrest Hin) as (e' & ? & ? & ?).
      exists e'. split_and!; [by apply list_elem_of_further|done..].
Qed.

Lemma zip_fulfilled_intro d req (ff : list TEndpoint) datas e data :
  fetchFn d <$> (fetchParamsOf req <$> ff) = Fulfilled <$> datas →
  e ∈ ff → fetchFn d (fetchParamsOf req e) = Fulfilled data →
  (uniqueKey e, data) ∈ zip (uniqueKey <$> ff) datas.
Proof.
  revert datas. induction ff as [|e' ff IH]; intros [|data' datas]; simpl; try done.
  - intros _ Hin. by apply elem_of_nil in Hin.
  - intros [= Hp Hrest] [->|Hin]%elem_of_cons Hdata.
    + rewrite Hp in Hdata. injection Hdata as ->. apply list_elem_of_here.
    + apply list_elem_of_further. eauto.
Qed.

Lemma pairs_functional {V} (l : list (string * V)) k v v' :
  NoDup l.*1 → (k, v) ∈ l → (k, v') ∈ l → v = v'.
Proof.
  intros Hnd H1 H2. apply (alookup_NoDup _ _ _ Hnd) in H1, H2. congruence.
Qed.

Lemma foldl_snd {A V} (f : A → V → A) (a : A) (l : list (string * V)) :
  foldl (λ acc g, f acc g.2) a l = foldl f a l.*2.
Proof. revert a. induction l as [|x l IH]; intros a; simpl; [done | apply IH]. Qed.

(** *** The endpoints the first loop gets past *)

Lemma reached_blocks es : Forall (λ e, blocks e = false) (reached es).
Proof.
  induction es as [|e es IH]; simpl; [constructor|].
  destruct (blocks e) eqn:Hb; [constructor | by constructor].
Qed.

Lemma reached_all es : Forall (λ e, blocks e = false) es → reached es = es.
Proof. induction 1 as [|e es He _ IH]; simpl; [done|]. by rewrite He, IH. Qed.

Lemma reached_split es :
  reached es = es ∨ ∃ e post, es = reached es ++ e :: post ∧ blocks e = true.
Proof.
  induction es as [|e es IH]; simpl; [by left|].
  destruct (blocks e) eqn:Hb.
  - right. by exists e, es.
  - destruct IH as [->|(e' & post & Hes & Hb')]; [by left|].
    right. exists e', post. split; [|done]. simpl. by rewrite <-Hes.
Qed.

Lemma reached_elem e es : e ∈ reached es → e ∈ es.
Proof.
  induction es as [|e' es IH]; simpl; [done|].
  destruct (blocks e'); [by intros ?%elem_of_nil|].
  intros [->|?]%elem_of_cons; [apply list_elem_of_here|].
  apply list_elem_of_further. auto.
Qed.

(** The endpoints [es] are a continuation of those the loop gets past. *)
Lemma reached_prefix es : ∃ post, es = reached es ++ post.
Proof.
  destruct (reached_split es) as [->|(e & post & Hes & _)].
  - exists []. by rewrite app_nil_r.
  - by exists (e :: post).
Qed.

Lemma plainKeys_reached req :
  plainKeys req ↔ reached (eligibleEndpoints req) = eligibleEndpoints req.
Proof.
  unfold plainKeys. split.
  - intros Hplain. apply reached_all, Forall_forall. intros e He. unfold blocks.
    destruct (requiresFetch e) eqn:Hrf; [|done]. simpl. by apply Hplain.
  - intros Heq e He Hrf. pose proof (reached_blocks (eligibleEndpoints req)) as Hall.
    rewrite Heq, Forall_forall in Hall. specialize (Hall e He).
    unfold blocks in Hall. by rewrite Hrf in Hall.
Qed.

Lemma forEach_app {A S : Type} (body : S → A → M S) l1 l2 (s : S) w :
  forEach body (l1 ++ l2) s w =
  match forEach body l1 s w with
  | (Normal s', w') => forEach body l2 s' w'
  | (Throw err, w') => (Throw err, w')
  end.
Proof.
  revert s w. induction l1 as [|x l1 IH]; intros s w; [done|].
  rewrite <-app_comm_cons, !forEach_cons.
  destruct (body s x w) as [[s'|err] w']; [apply IH | done].
Qed.

(** The first loop stops at the first endpoint whose unique key names a
    member of [Object.prototype], with the calls it has made so far. *)
Lemma registerAll_stops req d pre e post mc0 w :
  Forall (λ e, eligible e = true) pre → Forall (λ e, blocks e = false) pre →
  blocks e = true →
  forEach (registerEndpoint req d) (pre ++ e :: post) (initialRegistry mc0) w =
  (Throw notAFunction, recordFetches (fetchParamsOf req <$> firstFetchers [] pre) w).
Proof.
  intros Hel Hpre [Hrf Hinh]%andb_true_iff. rewrite forEach_app.
  destruct (registerAll req d pre Hel Hpre (initialRegistry mc0) w)
    as (st & -> & _ & _ & Hgr & _).
  simpl in Hgr. rewrite forEach_cons, registerEndpoint_throws; [done..|].
  rewrite Hgr, decide_False; [done|].
  intros (e' & He' & Hrf' & Hk)%fetchKeys_elem.
  rewrite Forall_forall in Hpre. specialize (Hpre e' He').
  unfold blocks in Hpre. by rewrite Hrf', Hk, Hinh in Hpre.
Qed.

(** *** The two loops together *)

Lemma resolveEndpoints_plain req d mc0 es w :
  Forall (λ e, eligible e = true) es → Forall (λ e, blocks e = false) es →
  let calls := fetchParamsOf req <$> firstFetchers [] es in
  ∃ r, resolveEndpoints req d mc0 es w = (r, recordFetches calls w) ∧
    match Promise_all (fetchFn d <$> calls) with
    | Throw err => r = Throw err
    | Normal datas =>
        ∃ mc, r = Normal (result d mc (mergeDetails d datas)) ∧
          (NoDup (endpointName <$> es) → ∀ e, e ∈ es → endpointName e ≠ "__proto__" →
             (requiresFetch e = false → mc !! endpointName e = Some (staticModels e)) ∧
             (∀ p data, p ∈ calls → callKey p = uniqueKey e → requiresFetch e = true →
                fetchFn d p = Fulfilled data →
                mc !! endpointName e = Some (mergedModels d data e)))
    end.
Proof.
  intros Hel Hplain calls. unfold resolveEndpoints. rewrite bind_run.
  destruct (registerAll req d es Hel Hplain (initialRegistry mc0) w)
    as (st & Hrun & Hfpm & Hmd & Hgr & Hem & Hmc).
  simpl in Hrun, Hfpm, Hmd, Hgr, Hem, Hmc. fold calls in Hrun. rewrite Hrun.
  assert (Hkeys : Object_keys (fetchPromisesMap st) = uniqueKey <$> firstFetchers [] es).
  { unfold Object_keys. rewrite Hfpm, <-list_fmap_compose. done. }
  assert (Hvals : Object_values (fetchPromisesMap st) = fetchFn d <$> calls).
  { unfold Object_values, calls. rewrite Hfpm, <-!list_fmap_compose. done. }
  rewrite bind_run. unfold await_all. rewrite Hvals, Hkeys.
  destruct (Promise_all (fetchFn d <$> calls)) as [datas|err] eqn:Hall; [|eauto].
  apply Promise_all_Normal in Hall. cbv beta iota zeta.
  set (gs := zip (uniqueKey <$> firstFetchers [] es) datas).
  assert (Hlen : length (uniqueKey <$> firstFetchers [] es) = length datas).
  { apply (f_equal length) in Hall. unfold calls in Hall.
    by rewrite !length_fmap in *. }
  assert (Hgs1 : gs.*1 = uniqueKey <$> firstFetchers [] es) by (apply fst_zip; lia).
  assert (Hgs2 : gs.*2 = datas) by (apply snd_zip; lia).
  assert (Hgroup : ∀ k, k ∈ fetchKeys es →
            uniqueKeyToEndpointsMap st !! k = Some (groupNames k es)).
  { intros k Hk. by rewrite Hgr, decide_True. }
  assert (Hin : ∀ nm g, inGroup st nm g → nm ∈ groupNames g.1 es).
  { intros nm g. unfold inGroup. rewrite Hgr. case_decide; [done|].
    rewrite lookup_empty. simpl. intros Hn. by apply elem_of_nil in Hn. }
  assert (Hknown : groupsKnown st gs).
  { intros g Hg. apply (zip_fulfilled_elem d req _ _ _ Hall) in Hg as (e0 & He0 & Hk0 & _).
    apply firstFetchers_elem in He0 as (He0 & Hrf0 & _).
    exists (groupNames g.1 es). split_and!.
    - apply Hgroup, fetchKeys_elem. eauto.
    - intros Hnil. assert (Hn : endpointName e0 ∈ groupNames g.1 es)
        by (apply groupNames_elem; eauto 6).
      rewrite Hnil in Hn. by apply elem_of_nil in Hn.
    - intros nm (e1 & He1 & _ & _ & <-)%groupNames_elem.
      destruct (lastNamed_is_Some (endpointName e1) es) as [e2 He2].
      { apply list_elem_of_fmap. eauto. }
      exists e2. rewrite Hem, He2. split; [done|].
      apply lastNamed_elem in He2 as [He2 _].
      rewrite Forall_forall in Hel. destruct (eligible_models e2) as [m ->]; [|done].
      by apply Hel. }
  rewrite bind_run.
  destruct (distributeGroups d gs st (recordFetches calls w) Hknown) as (st' & -> & _ & Hmd' & Hout & Hinn).
  exists (Normal (result d (modelsConfig st') (allModelDetails st'))).
  split; [done|]. exists (modelsConfig st'). split.
  { do 2 f_equal. rewrite Hmd', Hmd. unfold mergeDetails. rewrite <-Hgs2.
    by rewrite <-(foldl_snd (λ acc data, Object_assign acc (fetchedDetails d data))). }
  intros Hnd e He Hp. split.
  - intros Hrf.
    rewrite Hout, Hmc, (lastNamed_unique _ _ Hnd He), decide_False, Hrf; [done..|].
    right. intros g _ (e1 & He1 & Hrf1 & _ & Hn1)%Hin%groupNames_elem.
    apply (names_inj es) in Hn1; [|done..]. congruence.
  - intros p data (e0 & -> & He0)%list_elem_of_fmap Hk Hrf Hdata.
    rewrite (Hinn _ (uniqueKey e0, data)), Hem, (lastNamed_unique _ _ Hnd He); [done..| | |].
    + by apply (zip_fulfilled_intro d req).
    + unfold inGroup. simpl. rewrite callKey_fetchParamsOf in Hk. rewrite Hk.
      rewrite Hgroup by (apply fetchKeys_elem; eauto).
      apply groupNames_elem. eauto 6.
    + intros g' Hg' (e1 & He1 & Hrf1 & Hk1 & Hn1)%Hin%groupNames_elem.
      apply (names_inj es) in Hn1; [|done..]. subst e1.
      rewrite callKey_fetchParamsOf in Hk. simpl.
      apply (pairs_functional gs (uniqueKey e)).
      * rewrite Hgs1, firstFetchers_keys. apply firstSeen_NoDup.
      * rewrite Hk1. by destruct g'.
      * rewrite <-Hk. by apply (zip_fulfilled_intro d req).
Qed.

(** How the two loops run: they issue the calls of the endpoints the first
    loop gets past; when it gets past all of them the outcome is that of
    [Promise.all] over the promises of the calls, and otherwise the
    [TypeError] of the first loop. *)
Lemma resolveEndpoints_run req d mc0 es w :
  Forall (λ e, eligible e = true) es →
  let calls := fetchParamsOf req <$> firstFetchers [] (reached es) in
  ∃ r, resolveEndpoints req d mc0 es w = (r, recordFetches calls w) ∧
    if decide (reached es = es) then
      match Promise_all (fetchFn d <$> calls) with
      | Throw err => r = Throw err
      | Normal datas =>
          ∃ mc, r = Normal (result d mc (mergeDetails d datas)) ∧
            (NoDup (endpointName <$> es) → ∀ e, e ∈ es → endpointName e ≠ "__proto__" →
               (requiresFetch e = false → mc !! endpointName e = Some (staticModels e)) ∧
               (∀ p data, p ∈ calls → callKey p = uniqueKey e → requiresFetch e = true →
                  fetchFn d p = Fulfilled data →
                  mc !! endpointName e = Some (mergedModels d data e)))
      end
    else r = Throw notAFunction.
Proof.
  intros Hel calls. case_decide as Hreached.
  - unfold calls. rewrite Hreached. apply resolveEndpoints_plain; [done|].
    rewrite <-Hreached. apply reached_blocks.
  - destruct (reached_split es) as [?|(e & post & Hes & Hb)]; [done|].
    exists (Throw notAFunction). split; [|done].
    unfold resolveEndpoints. rewrite bind_run.
    rewrite Hes at 1. rewrite registerAll_stops; [done | | apply reached_blocks | done].
    rewrite Hes in Hel. by apply Forall_app in Hel as [? _].
Qed.

Lemma customEndpoints_eligible custom :
  Forall (λ e, eligible e = true) (customEndpoints custom).
Proof.
  apply Forall_forall. intros e. unfold customEndpoints.
  by intros [? _]%list_elem_of_filter.
Qed.

(** How [loadConfigModels] runs: it issues [issuedCalls], and answers by
    the outcome of [Promise.all] over their promises, unless the first loop
    has stopped at a unique key that names a member of [Object.prototype]. *)
Lemma loadConfigModels_run req d w :
  ∃ r, loadConfigModels req d w = (r, recordFetches (issuedCalls req) w) ∧
    if decide (reached (eligibleEndpoints req) = eligibleEndpoints req) then
      match Promise_all (issuedPromises req d) with
      | Throw err => r = Throw err
      | Normal datas =>
          ∃ mc, r = Normal (result d mc (mergeDetails d datas)) ∧
            (uniqueNames req → ∀ e, e ∈ eligibleEndpoints req →
               endpointName e ≠ "__proto__" →
               (requiresFetch e = false → mc !! endpointName e = Some (staticModels e)) ∧
               (∀ p data, p ∈ issuedCalls req → callKey p = uniqueKey e →
                  requiresFetch e = true → fetchFn d p = Fulfilled data →
                  mc !! endpointName e = Some (mergedModels d data e)))
      end
    else r = Throw notAFunction.
Proof.
  unfold loadConfigModels, issuedPromises, issuedCalls, uniqueNames, eligibleEndpoints.
  destruct (getAppConfig _) as [cfg|]; [destruct (endpoints_custom cfg) as [custom|]|].
  - apply resolveEndpoints_run, customEndpoints_eligible.
  - simpl. rewrite recordFetches_nil. eexists. split; [done|].
    eexists. split; [done|]. intros _ e He. by apply elem_of_nil in He.
  - simpl. rewrite recordFetches_nil. eexists. split; [done|].
    eexists. split; [done|]. intros _ e He. by apply elem_of_nil in He.
Qed.

(** The run of [loadConfigModels] when no unique key names a member of
    [Object.prototype]. *)
Lemma loadConfigModels_plain req d w :
  plainKeys req →
  ∃ r, loadConfigModels req d w = (r, recordFetches (issuedCalls req) w) ∧
    match Promise_all (issuedPromises req d) with
    | Throw err => r = Throw err
    | Normal datas =>
        ∃ mc, r = Normal (result d mc (mergeDetails d datas)) ∧
          (uniqueNames req → ∀ e, e ∈ eligibleEndpoints req →
             endpointName e ≠ "__proto__" →
             (requiresFetch e = false → mc !! endpointName e = Some (staticModels e)) ∧
             (∀ p data, p ∈ issuedCalls req → callKey p = uniqueKey e →
                requiresFetch e = true → fetchFn d p = Fulfilled data →
                mc !! endpointName e = Some (mergedModels d data e)))
    end.
Proof.
  intros Hplain%plainKeys_reached.
  destruct (loadConfigModels_run req d w) as (r & Hrun & Hr).
  rewrite decide_True in Hr by done. eauto.
Qed.

(** The world after [loadConfigModels]: the issued calls are recorded. *)
Lemma loadConfigModels_world req d w :
  (loadConfigModels req d w).2 = recordFetches (issuedCalls req) w.
Proof. by destruct (loadConfigModels_run req d w) as (r & -> & _). Qed.

Lemma issuedCalls_keys req :
  callKey <$> issuedCalls req =
  firstSeen [] (fetchKeys (reached (eligibleEndpoints req))).
Proof.
  unfold issuedCalls. rewrite <-list_fmap_compose, <-firstFetchers_keys.
  apply list_fmap_ext. intros _ e _. apply callKey_fetchParamsOf.
Qed.

Lemma issuedCalls_elem req p :
  p ∈ issuedCalls req →
  ∃ e, p = fetchParamsOf req e ∧ e ∈ eligibleEndpoints req ∧ requiresFetch e = true.
Proof.
  unfold issuedCalls. intros (e & -> & He)%list_elem_of_fmap.
  apply firstFetchers_elem in He as (?%reached_elem & ? & _). eauto.
Qed.

Lemma issuedCalls_for_key req e :
  plainKeys req → e ∈ eligibleEndpoints req → requiresFetch e = true →
  ∃ p, p ∈ issuedCalls req ∧ callKey p = uniqueKey e.
Proof.
  intros Hplain%plainKeys_reached He Hrf.
  assert (Hk : uniqueKey e ∈ callKey <$> issuedCalls req).
  { rewrite issuedCalls_keys, Hplain, firstSeen_elem. split; [|apply not_elem_of_nil].
    apply fetchKeys_elem. eauto. }
  apply list_elem_of_fmap in Hk as (p & ? & ?). eauto.
Qed.

Lemma resultModels_result d mc (md : gmap string TModelDetails) :
  resultModels (result d mc md) = mc.
Proof. by destruct d. Qed.

(** When no unique key names a member of [Object.prototype] and no fetch
    rejects, the resolution returns, and every endpoint whose name is not
    ["__proto__"] has its list: the static one, or the one merged from the
    fetch of its key. *)
Lemma resolution_returns req d w :
  plainKeys req → allFulfilled req d →
  ∃ r datas, loadConfigModels req d w = (Normal r, recordFetches (issuedCalls req) w) ∧
    issuedPromises req d = Fulfilled <$> datas ∧
    r = result d (resultModels r) (mergeDetails d datas) ∧
    (uniqueNames req → ∀ e, e ∈ eligibleEndpoints req →
       endpointName e ≠ "__proto__" →
       (requiresFetch e = false →
          resultModels r !! endpointName e = Some (staticModels e)) ∧
       (requiresFetch e = true →
          ∃ p data, p ∈ issuedCalls req ∧ callKey p = uniqueKey e ∧
            fetchFn d p = Fulfilled data ∧
            resultModels r !! endpointName e = Some (mergedModels d data e))).
Proof.
  intros Hplain Hall. destruct (loadConfigModels_plain req d w Hplain) as (r & Hrun & Hr).
  destruct (Promise_all_fulfilled (issuedPromises req d)) as [datas Hdatas].
  { intros pr (p & -> & Hp)%list_elem_of_fmap. by apply Hall. }
  rewrite Hdatas in Hr. destruct Hr as (mc & -> & Hmc).
  exists (result d mc (mergeDetails d datas)), datas.
  rewrite resultModels_result. split_and!; [done | by apply Promise_all_Normal | done |].
  intros Hnd e He Hp. destruct (Hmc Hnd e He Hp) as [Hstatic Hfetch]. split; [done|].
  intros Hrf. destruct (issuedCalls_for_key req e Hplain He Hrf) as (p & Hp' & Hk).
  destruct (Hall p Hp') as [data Hdata]. exists p, data. split_and!; try done.
  by apply (Hfetch p data).
Qed.

(** X20: when no unique key names a member of [Object.prototype], the
    fetch calls [loadConfigModels] makes are as many as there are distinct
    FetchKeys among the eligible endpoints it fetches for, and no two of
    them are for the same key, however the resolution ends. *)
Theorem one_fetch_per_key req d w :
  plainKeys req →
  ∃ calls, fetchCalls (loadConfigModels req d w).2 = fetchCalls w ++ calls ∧
    length calls = size (list_to_set (fetchKeys (eligibleEndpoints req)) : gset string) ∧
    NoDup (callKey <$> calls).
Proof.
  intros Hplain%plainKeys_reached. rewrite loadConfigModels_world.
  exists (issuedCalls req). split_and!; [done|..].
  - rewrite <-firstSeen_length, <-Hplain, <-issuedCalls_keys. by rewrite length_fmap.
  - rewrite issuedCalls_keys. apply firstSeen_NoDup.
Qed.

(** X21: when no unique key names a member of [Object.prototype], an
    endpoint that is fetched for and is not named ["__proto__"] ends with
    the fetched list when that list is not empty, and with its
    [models.default], or the empty list when none is configured, when the
    fetched list is empty or absent. *)
Theorem empty_fetch_falls_back req d w e data :
  uniqueNames req → plainKeys req → allFulfilled req d →
  e ∈ eligibleEndpoints req → requiresFetch e = true →
  endpointName e ≠ "__proto__" →
  (∀ p, p ∈ issuedCalls req → callKey p = uniqueKey e → fetchFn d p = Fulfilled data) →
  ∃ r, (loadConfigModels req d w).1 = Normal r ∧
    resultModels r !! endpointName e =
      Some (match fetchedList d data with
            | Some (x :: l) => x :: l
            | _ => default [] (models e ≫= models_default)
            end).
Proof.
  intros Hnd Hplain Hall He Hrf Hname Hdata.
  destruct (resolution_returns req d w Hplain Hall) as (r & datas & -> & _ & _ & Hr).
  exists r. split; [done|].
  destruct (Hr Hnd e He Hname) as [_ Hfetch].
  destruct (Hfetch Hrf) as (p & data' & Hp & Hk & Hdata' & ->).
  rewrite (Hdata p Hp Hk) in Hdata'. by injection Hdata' as <-.
Qed.

Lemma requiresFetch_not_userProvided e :
  requiresFetch e = true →
  isUserProvided (API_KEY e) = false ∧ isUserProvided (BASE_URL e) = false.
Proof.
  intros (m & _ & Hf)%requiresFetch_models. unfold fetchable in Hf.
  apply andb_true_iff in Hf as [[_ Hk]%andb_true_iff Hu].
  by apply negb_true_iff in Hk, Hu.
Qed.

Lemma filter_unique_key (calls : list FetchParams) k :
  NoDup (callKey <$> calls) → k ∈ callKey <$> calls →
  length (filter (λ p, callKey p = k) calls) = 1.
Proof.
  induction calls as [|p calls IH]; simpl.
  - intros _ Hk. by apply elem_of_nil in Hk.
  - rewrite NoDup_cons. intros [Hp Hnd] Hk. rewrite filter_cons.
    case_decide as Hpk.
    + subst k. simpl. f_equal.
      destruct (filter _ calls) as [|q qs] eqn:Hq; [done|].
      assert (Hin : q ∈ filter (λ p0, callKey p0 = callKey p) calls)
        by (rewrite Hq; apply list_elem_of_here).
      apply list_elem_of_filter in Hin as [Hqk Hin].
      exfalso. apply Hp. rewrite <-Hqk. apply list_elem_of_fmap. eauto.
    + apply IH; [done|]. by apply elem_of_cons in Hk as [?|?].
Qed.

(** X24: an endpoint whose resolved apiKey or baseURL is user provided is
    never fetched for -- no call carries its name or its credentials -- and,
    when the resolution returns and the endpoint is not named
    ["__proto__"], it ends with its [models.default] mapped to identifier
    strings, or with the empty list when no default array is configured. *)
Theorem user_provided_never_fetched req d w e :
  uniqueNames req → e ∈ eligibleEndpoints req →
  isUserProvided (API_KEY e) = true ∨ isUserProvided (BASE_URL e) = true →
  ∃ calls, fetchCalls (loadConfigModels req d w).2 = fetchCalls w ++ calls ∧
    (∀ p, p ∈ calls →
       fp_name p ≠ endpointName e ∧
       ¬ (fp_apiKey p = API_KEY e ∧ fp_baseURL p = BASE_URL e)) ∧
    (plainKeys req → allFulfilled req d → endpointName e ≠ "__proto__" →
       ∃ r, (loadConfigModels req d w).1 = Normal r ∧
         resultModels r !! endpointName e =
           Some (ModelId <$> (modelName <$> default [] (models e ≫= models_default)))).
Proof.
  intros Hnd He Huser.
  assert (Hrf : requiresFetch e = false).
  { destruct (requiresFetch e) eqn:Hrf; [|done].
    apply requiresFetch_not_userProvided in Hrf as [? ?]. destruct Huser; congruence. }
  exists (issuedCalls req). split_and!.
  - by rewrite loadConfigModels_world.
  - intros p (e0 & -> & He0 & Hrf0)%issuedCalls_elem.
    apply requiresFetch_models in Hrf0 as Hm. destruct Hm as (m & Hm & _).
    unfold fetchParamsOf. rewrite Hm. simpl. split.
    + intros Hn. apply (names_inj _ _ _ Hnd He0 He) in Hn. congruence.
    + intros [Hk Hu]. apply requiresFetch_not_userProvided in Hrf0 as [? ?].
      destruct Huser; congruence.
  - intros Hplain Hall Hname.
    destruct (resolution_returns req d w Hplain Hall) as (r & datas & -> & _ & _ & Hr).
    exists r. split; [done|]. by destruct (Hr Hnd e He Hname) as [-> _].
Qed.

(** X25: the mapping of structured default entries to their names is
    applied on the path without fetch only.  Of two endpoints with the same
    default list, neither named ["__proto__"], the one that is fetched for
    and whose fetch returns an empty (or no) list ends with the list as it
    is configured, an entry [{ name: m }] being the object itself, while the
    one that is not fetched for ends with the names, the same entry being
    the string [m]. *)
Theorem default_mapping_only_without_fetch req d w f s l :
  uniqueNames req → plainKeys req → allFulfilled req d →
  f ∈ eligibleEndpoints req → s ∈ eligibleEndpoints req →
  endpointName f ≠ "__proto__" → endpointName s ≠ "__proto__" →
  requiresFetch f = true → requiresFetch s = false →
  models f ≫= models_default = Some l → models s ≫= models_default = Some l →
  (∀ p data, p ∈ issuedCalls req → callKey p = uniqueKey f →
     fetchFn d p = Fulfilled data → noLength (fetchedList d data) = true) →
  ∃ r, (loadConfigModels req d w).1 = Normal r ∧
    resultModels r !! endpointName f = Some l ∧
    resultModels r !! endpointName s = Some (ModelId <$> (modelName <$> l)).
Proof.
  intros Hnd Hplain Hall Hf Hs Hnf Hns Hrf Hrs Hlf Hls Hempty.
  destruct (resolution_returns req d w Hplain Hall) as (r & datas & -> & _ & _ & Hr).
  exists r. destruct (Hr Hnd f Hf Hnf) as [_ Hfetch].
  destruct (Hr Hnd s Hs Hns) as [Hstatic _].
  split_and!; [done|..].
  - destruct (Hfetch Hrf) as (p & data & Hp & Hk & Hdata & ->).
    specialize (Hempty p data Hp Hk Hdata).
    unfold mergedModels, configuredDefault. rewrite Hlf.
    by destruct (fetchedList d data) as [[|]|].
  - rewrite (Hstatic Hrs). unfold staticModels, configuredDefault. by rewrite Hls.
Qed.

(** C2, amended: when no unique key names a member of [Object.prototype],
    two endpoints that are fetched for with the same resolved baseURL and
    apiKey, neither of them named ["__proto__"], are served by one fetch
    call, and when no fetch rejects and that call resolves to a list that is
    not empty both names are assigned that list. *)
Theorem shared_key_shared_list req d w a b :
  uniqueNames req → plainKeys req →
  a ∈ eligibleEndpoints req → b ∈ eligibleEndpoints req →
  requiresFetch a = true → requiresFetch b = true →
  BASE_URL a = BASE_URL b → API_KEY a = API_KEY b →
  endpointName a ≠ endpointName b →
  endpointName a ≠ "__proto__" → endpointName b ≠ "__proto__" →
  ∃ calls, fetchCalls (loadConfigModels req d w).2 = fetchCalls w ++ calls ∧
    length (filter (λ p, callKey p = uniqueKey a) calls) = 1 ∧
    ∀ data x l,
      allFulfilled req d →
      (∀ p, p ∈ calls → callKey p = uniqueKey a → fetchFn d p = Fulfilled data) →
      fetchedList d data = Some (x :: l) →
      ∃ r, (loadConfigModels req d w).1 = Normal r ∧
        resultModels r !! endpointName a = Some (x :: l) ∧
        resultModels r !! endpointName b = Some (x :: l).
Proof.
  intros Hnd Hplain Ha Hb Hfa Hfb Hurl Hkey _ Hna Hnb.
  assert (Hab : uniqueKey b = uniqueKey a) by (unfold uniqueKey; congruence).
  exists (issuedCalls req). split_and!.
  - by rewrite loadConfigModels_world.
  - apply filter_unique_key.
    + rewrite issuedCalls_keys. apply firstSeen_NoDup.
    + destruct (issuedCalls_for_key req a Hplain Ha Hfa) as (p & Hp & Hk).
      apply list_elem_of_fmap. eauto.
  - intros data x l Hall Hdata Hlist.
    destruct (resolution_returns req d w Hplain Hall) as (r & datas & -> & _ & _ & Hr).
    exists r. split; [done|].
    assert (Hboth : ∀ e, e ∈ eligibleEndpoints req → requiresFetch e = true →
              endpointName e ≠ "__proto__" → uniqueKey e = uniqueKey a →
              resultModels r !! endpointName e = Some (x :: l)).
    { intros e He Hrf Hne Hk. destruct (Hr Hnd e He Hne) as [_ Hfetch].
      destruct (Hfetch Hrf) as (p & data' & Hp & Hkp & Hdata' & ->).
      rewrite Hk in Hkp. rewrite (Hdata p Hp Hkp) in Hdata'. injection Hdata' as <-.
      unfold mergedModels. by rewrite Hlist. }
    split; by apply Hboth.
Qed.

(** *** The cache *)

Lemma string_length_app (s t : string) :
  String.length (s +:+ t) = String.length s + String.length t.
Proof. induction s as [|c s IH]; simpl; [done | by rewrite IH]. Qed.

Lemma cacheKey_slots : cacheKey true ≠ cacheKey false.
Proof.
  unfold cacheKey. intros Heq. apply (f_equal String.length) in Heq.
  rewrite string_length_app in Heq. simpl in Heq. lia.
Qed.

Lemma loadModels_hit req d w r :
  cache w !! cacheKey d = Some r → loadModels req d w = (Normal r, w).
Proof.
  intros Hhit. unfold loadModels. rewrite bind_run. unfold cache_get. by rewrite Hhit.
Qed.

(** A miss: the default provider is called, then [loadConfigModels]; its
    result is merged over the defaults, stored and returned. *)
Lemma loadModels_miss req d w dm :
  cache w !! cacheKey d = None → loadDefaultModels req = Normal dm →
  loadModels req d w =
  match loadConfigModels req d (callLoadDefaultModels req w).2 with
  | (Normal customResult, w') =>
      let modelConfig :=
        if d then Detailed (spread dm (result_models customResult))
                           (result_modelDetails customResult)
        else Plain (spread dm (result_plain customResult)) in
      (Normal modelConfig, (cache_set (cacheKey d) modelConfig w').2)
  | (Throw err, w') => (Throw err, w')
  end.
Proof.
  intros Hmiss Hdm. unfold loadModels. rewrite bind_run. unfold cache_get.
  rewrite Hmiss, bind_run. unfold callLoadDefaultModels at 1. rewrite Hdm.
  unfold callLoadDefaultModels. simpl.
  destruct d; rewrite bind_run; by destruct (loadConfigModels _ _ _) as [[cr|err] w'].
Qed.

(** C5: once a call of [loadModels] has missed the cache and returned, its
    result is in the slot of its verbosity, and every later call with that
    verbosity that still finds it there returns it and leaves the world as
    it is: no call of the default provider, none of the fetch collaborator.
    The same holds for [getModelsConfig]; a call with the other verbosity
    writes another slot. *)
Theorem cache_round_trip req d w r w1 :
  cache w !! cacheKey d = None →
  loadModels req d w = (Normal r, w1) →
  cache w1 !! cacheKey d = Some r ∧
  (∀ req' w2, cache w2 !! cacheKey d = Some r →
     loadModels req' d w2 = (Normal r, w2) ∧
     getModelsConfig req' d w2 = (Normal r, w2)) ∧
  (∀ req' w2, cache w2 !! cacheKey d = Some r →
     cache (loadModels req' (negb d) w2).2 !! cacheKey d = Some r).
Proof.
  intros Hmiss Hrun. split_and!.
  - unfold loadModels in Hrun. rewrite bind_run in Hrun. unfold cache_get in Hrun.
    rewrite Hmiss, bind_run in Hrun.
    destruct (callLoadDefaultModels req w) as [[dm|err] w0]; [|done].
    destruct d; rewrite bind_run in Hrun;
      destruct (loadConfigModels _ _ _) as [[cr|err] w'']; try done;
      injection Hrun as <- <-; apply lookup_insert_eq.
  - intros req' w2 Hhit. split; [by apply loadModels_hit|].
    unfold getModelsConfig. rewrite bind_run. unfold cache_get. by rewrite Hhit.
  - intros req' w2 Hhit.
    assert (Hne : cacheKey (negb d) ≠ cacheKey d).
    { destruct d; simpl; [symmetry|]; apply cacheKey_slots. }
    unfold loadModels. rewrite bind_run. unfold cache_get.
    destruct (cache w2 !! cacheKey (negb d)); [done|].
    rewrite bind_run.
    destruct (callLoadDefaultModels req' w2) as [[dm|err] w0] eqn:Hdef;
      unfold callLoadDefaultModels in Hdef; injection Hdef as _ <-; [|done].
    destruct (negb d) eqn:Hd; rewrite bind_run;
      match goal with |- context [loadConfigModels req' ?d' ?w'] =>
        destruct (loadConfigModels_run req' d' w') as (r0 & -> & _) end;
      destruct r0; simpl; rewrite ?lookup_insert_ne by done; done.
Qed.

(** X22: when no unique key names a member of [Object.prototype] and a
    fetch call rejects, [loadConfigModels] ends with the error of a rejected
    call, the one that rejects first, and so does [loadModels]; neither of
    them writes the cache, and the controller answers 500 with the message
    of that error. *)
Theorem fetch_failure_propagates req d w t err dm :
  plainKeys req →
  cache w !! cacheKey d = None → loadDefaultModels req = Normal dm →
  wantsDetails req = d →
  Rejected t err ∈ issuedPromises req d →
  ∃ t' err', Rejected t' err' ∈ issuedPromises req d ∧
    (∀ t'' err'', Rejected t'' err'' ∈ issuedPromises req d → (t' ≤ t'')%nat) ∧
    (∀ w0, ∃ w', loadConfigModels req d w0 = (Throw err', w') ∧ cache w' = cache w0) ∧
    (∃ w', loadModels req d w = (Throw err', w') ∧ cache w' = cache w) ∧
    (∃ w', modelController req w =
             ({| status := 500; body := SendError (message err') |}, w')
           ∧ cache w' = cache w).
Proof.
  intros Hplain Hmiss Hdm Hd [err' Hall]%Promise_all_rejected.
  destruct (Promise_all_Throw _ _ Hall) as (t' & Hin & Hfirst).
  exists t', err'. split; [done|]. split; [done|].
  assert (Hcfg : ∀ w0, loadConfigModels req d w0 =
                       (Throw err', recordFetches (issuedCalls req) w0)).
  { intros w0. destruct (loadConfigModels_plain req d w0 Hplain) as (r & -> & Hr).
    rewrite Hall in Hr. by subst r. }
  assert (Hload : loadModels req d w =
            (Throw err', recordFetches (issuedCalls req) (callLoadDefaultModels req w).2)).
  { by rewrite (loadModels_miss req d w dm Hmiss Hdm), Hcfg. }
  split_and!.
  - intros w0. eexists. split; [apply Hcfg | done].
  - eexists. split; [apply Hload | done].
  - unfold modelController. rewrite Hd, Hload. eexists. split; [done|done].
Qed.






(** C7, amended: without a list of custom endpoints no fetch is made and,
    on a miss, [loadModels] returns the models of the default provider with
    the Azure entries of the configuration laid over them -- unchanged when
    the configuration has no Azure entries -- wrapped with empty model
    details in detailed mode. *)
Theorem no_custom_list_defaults req d w dm :
  customAbsent req →
  cache w !! cacheKey d = None → loadDefaultModels req = Normal dm →
  ∃ w', loadModels req d w = (Normal (result d (spread dm (configuredAzure req)) ∅), w') ∧
    fetchCalls w' = fetchCalls w ∧
    (configuredAzure req = ∅ → loadModels req d w = (Normal (result d dm ∅), w')).
Proof.
  unfold customAbsent, configuredAzure. intros Habs Hmiss Hdm.
  rewrite (loadModels_miss req d w dm Hmiss Hdm). unfold loadConfigModels.
  destruct (getAppConfig _) as [cfg|]; [rewrite Habs|]; destruct d; simpl;
    eexists; (split_and!; [done | done |]); intros Haz;
    rewrite ?Haz; unfold spread; rewrite (left_id_L ∅ (∪)); done.
Qed.
(** *** What [loadModels] and the controller do to the world *)

Lemma loadConfigModels_returns req d w r w' :
  loadConfigModels req d w = (Normal r, w') →
  w' = recordFetches (issuedCalls req) w ∧ ∃ mc md, r = result d mc md.
Proof.
  intros Hrun. destruct (loadConfigModels_run req d w) as (r0 & Hrun0 & Hr).
  rewrite Hrun in Hrun0. injection Hrun0 as <- ->. split; [done|].
  case_decide; [|done].
  destruct (Promise_all _) as [datas|err]; [|done].
  destruct Hr as (mc & [= ->] & _). eauto.
Qed.

Lemma loadConfigModels_shape req d w r w' :
  loadConfigModels req d w = (Normal r, w') → isDetailed r = d.
Proof. intros (_ & mc & md & ->)%loadConfigModels_returns. by destruct d. Qed.

(** A miss whose default provider throws. *)
Lemma loadModels_default_throws req d w err :
  cache w !! cacheKey d = None → loadDefaultModels req = Throw err →
  loadModels req d w = (Throw err, (callLoadDefaultModels req w).2).
Proof.
  intros Hmiss Hdm. unfold loadModels. rewrite bind_run. unfold cache_get.
  rewrite Hmiss, bind_run. unfold callLoadDefaultModels. by rewrite Hdm.
Qed.

(** X1: [loadModels] keeps the cache well shaped, and from a well-shaped
    cache it returns the shape that was asked for: a detailed request is
    never answered by a plain config, be it computed or cached. *)
Theorem loadModels_keeps_shape req d w :
  wellShaped (cache w) →
  wellShaped (cache (loadModels req d w).2) ∧
  ∀ r, (loadModels req d w).1 = Normal r → isDetailed r = d.
Proof.
  intros Hshape. destruct (cache w !! cacheKey d) as [cached|] eqn:Hslot.
  - rewrite (loadModels_hit req d w cached Hslot). simpl. split; [done|].
    intros r [= <-]. by apply Hshape.
  - destruct (loadDefaultModels req) as [dm|err] eqn:Hdm.
    + rewrite (loadModels_miss req d w dm Hslot Hdm).
      destruct (loadConfigModels req d _) as [[cr|err] w'] eqn:Hrun; simpl.
      * apply loadConfigModels_returns in Hrun as (-> & mc & md & ->). simpl.
        split; [|intros r [= <-]; by destruct d].
        intros d' r'. destruct (decide (cacheKey d = cacheKey d')) as [Heq|Hne].
        -- rewrite Heq, lookup_insert_eq. intros [= <-].
           destruct d, d'; try done; exfalso;
             [apply cacheKey_slots | apply cacheKey_slots; symmetry]; done.
        -- rewrite lookup_insert_ne by done. apply Hshape.
      * split; [|done].
        destruct (loadConfigModels_run req d (callLoadDefaultModels req w).2)
          as (r0 & Hrun0 & _).
        rewrite Hrun in Hrun0. injection Hrun0 as _ ->. exact Hshape.
    + rewrite (loadModels_default_throws req d w err Hslot Hdm). simpl. by split.
Qed.

(** X2: whatever its outcome, [loadModels] writes no slot of the cache but
    that of its verbosity and logs nothing; on a hit the world is left as it
    is; on a miss the default provider is called once, with the request, and
    the fetch calls of the resolution are made only when it has returned. *)
Theorem loadModels_effects req d w :
  (∀ k, k ≠ cacheKey d → cache (loadModels req d w).2 !! k = cache w !! k) ∧
  errorLog (loadModels req d w).2 = errorLog w ∧
  match cache w !! cacheKey d with
  | Some cached => loadModels req d w = (Normal cached, w)
  | None =>
      defaultCalls (loadModels req d w).2 = defaultCalls w ++ [req] ∧
      fetchCalls (loadModels req d w).2 =
        fetchCalls w ++ match loadDefaultModels req with
                        | Normal _ => issuedCalls req
                        | Throw _ => []
                        end
  end.
Proof.
  destruct (cache w !! cacheKey d) as [cached|] eqn:Hslot.
  - by rewrite (loadModels_hit req d w cached Hslot).
  - destruct (loadDefaultModels req) as [dm|err] eqn:Hdm.
    + rewrite (loadModels_miss req d w dm Hslot Hdm).
      destruct (loadConfigModels_run req d (callLoadDefaultModels req w).2)
        as (r0 & -> & _).
      destruct r0 as [cr|err]; simpl; (split_and!; [|done..]);
        intros k Hk; by rewrite ?lookup_insert_ne.
    + rewrite (loadModels_default_throws req d w err Hslot Hdm). simpl.
      by rewrite app_nil_r.
Qed.

(** X3: when the default provider throws on a miss, [loadModels] ends with
    its error before any fetch is made and without writing the cache, and
    the controller answers 500 with the message of the error. *)
Theorem default_failure_propagates req d w err :
  cache w !! cacheKey d = None → loadDefaultModels req = Throw err →
  wantsDetails req = d →
  ∃ w', loadModels req d w = (Throw err, w') ∧
    cache w' = cache w ∧ fetchCalls w' = fetchCalls w ∧
    ∃ w'', modelController req w =
             ({| status := 500; body := SendError (message err) |}, w'') ∧
      cache w'' = cache w ∧ fetchCalls w'' = fetchCalls w.
Proof.
  intros Hmiss Hdm Hd. eexists. split; [by apply loadModels_default_throws|].
  split; [done|]. split; [done|].
  unfold modelController. rewrite Hd, (loadModels_default_throws req d w err Hmiss Hdm).
  eexists. by split_and!.
Qed.

(** X4: the controller has two outcomes.  Either it answers 200 with a
    config that the slot of the request's verbosity now holds, and logs
    nothing; or it answers 500 with the message of the error that ended
    [loadModels], logs that error once and leaves the cache as it was. *)
Theorem modelController_outcome req w :
  let resp := (modelController req w).1 in
  let w' := (modelController req w).2 in
  (status resp = 200 ∧
   ∃ modelConfig, body resp = SendModels modelConfig ∧
     cache w' !! cacheKey (wantsDetails req) = Some modelConfig ∧
     errorLog w' = errorLog w) ∨
  (status resp = 500 ∧
   ∃ err, body resp = SendError (message err) ∧
     (loadModels req (wantsDetails req) w).1 = Throw err ∧
     cache w' = cache w ∧ errorLog w' = errorLog w ++ [err]).
Proof.
  unfold modelController. set (d := wantsDetails req).
  destruct (cache w !! cacheKey d) as [cached|] eqn:Hslot.
  - rewrite (loadModels_hit req d w cached Hslot). simpl. left. eauto.
  - destruct (loadDefaultModels req) as [dm|err] eqn:Hdm.
    + rewrite (loadModels_miss req d w dm Hslot Hdm).
      destruct (loadConfigModels_run req d (callLoadDefaultModels req w).2)
        as (r0 & -> & _).
      destruct r0 as [cr|err]; simpl.
      * left. split; [done|]. eexists. split; [done|].
        by rewrite lookup_insert_eq.
      * right. split; [done|]. by exists err.
    + rewrite (loadModels_default_throws req d w err Hslot Hdm). simpl.
      right. split; [done|]. by exists err.
Qed.

(** *** The entries of the result *)

Lemma distributeGroups_keeps_entries d gs : ∀ st w st' w',
  groupsKnown st gs →
  forEach (distributeGroup d) gs st w = (Normal st', w') →
  ∀ nm, is_Some (modelsConfig st !! nm) → is_Some (modelsConfig st' !! nm).
Proof.
  induction gs as [|g gs IH]; intros st w st' w' Hk.
  - by intros [= <- <-].
  - destruct (Hk g) as (names & Hnames & Hne & Hkn); [apply list_elem_of_here|].
    rewrite forEach_cons. unfold distributeGroup at 1.
    unfold mbind, M_bind. rewrite Hnames. simpl.
    destruct (distributeNames d g.2 names st w Hkn)
      as (st1 & -> & (Hem1 & Hgr1 & Hfpm1) & _ & Hmc1).
    intros Hrun nm Hnm. apply (IH st1 w st' w'); [|done|].
    + intros g' Hg'.
      destruct (Hk g') as (ns & ? & ? & Hns); [by apply list_elem_of_further|].
      exists ns. rewrite Hgr1. split_and!; try done.
      intros nm' Hnm'. rewrite Hem1. by apply Hns.
    + rewrite Hmc1. case_decide as Hin; [|done]. destruct Hin as [Hin _].
      destruct (Hkn nm Hin) as (e & -> & _). by eexists.
Qed.

Lemma lastNamed_None nm es : nm ∉ endpointName <$> es → lastNamed nm es = None.
Proof.
  intros Hnm. destruct (lastNamed nm es) as [e|] eqn:Hlast; [|done].
  apply lastNamed_elem in Hlast as [He <-]. exfalso. apply Hnm.
  apply list_elem_of_fmap. eauto.
Qed.

(** The registries after the first and after the second loop of a
    resolution that returns [r]. *)
Lemma resolveEndpoints_inside req d mc0 es w r w' :
  Forall (λ e, eligible e = true) es →
  resolveEndpoints req d mc0 es w = (Normal r, w') →
  ∃ st st', resultModels r = modelsConfig st' ∧
    (∀ nm, modelsConfig st !! nm =
           match lastNamed nm es with
           | Some e =>
               if decide (nm = "__proto__") then mc0 !! nm
               else Some (if requiresFetch e then [] else staticModels e)
           | None => mc0 !! nm
           end) ∧
    (∀ nm, nm = "__proto__" ∨
           (∀ e, e ∈ es → endpointName e = nm → requiresFetch e = false) →
           modelsConfig st' !! nm = modelsConfig st !! nm) ∧
    (∀ nm, is_Some (modelsConfig st !! nm) → is_Some (modelsConfig st' !! nm)).
Proof.
  intros Hel Hreturns.
  assert (Hplain : Forall (λ e, blocks e = false) es).
  { destruct (resolveEndpoints_run req d mc0 es w Hel) as (r0 & Hrun0 & Hr0).
    rewrite Hreturns in Hrun0. injection Hrun0 as <- _.
    case_decide as Hreached; [|done]. rewrite <-Hreached. apply reached_blocks. }
  revert Hreturns. unfold resolveEndpoints. rewrite bind_run.
  destruct (registerAll req d es Hel Hplain (initialRegistry mc0) w)
    as (st & Hrun & Hfpm & _ & Hgr & Hem & Hmc).
  simpl in Hrun, Hfpm, Hgr, Hem, Hmc. rewrite Hrun. clear Hrun.
  set (calls := fetchParamsOf req <$> firstFetchers [] es).
  assert (Hkeys : Object_keys (fetchPromisesMap st) = uniqueKey <$> firstFetchers [] es).
  { unfold Object_keys. rewrite Hfpm, <-list_fmap_compose. done. }
  assert (Hvals : Object_values (fetchPromisesMap st) = fetchFn d <$> calls).
  { unfold Object_values, calls. rewrite Hfpm, <-!list_fmap_compose. done. }
  rewrite bind_run. unfold await_all. rewrite Hvals, Hkeys.
  destruct (Promise_all (fetchFn d <$> calls)) as [datas|err] eqn:Hall; [|done].
  apply Promise_all_Normal in Hall. cbv beta iota zeta.
  set (gs := zip (uniqueKey <$> firstFetchers [] es) datas).
  assert (Hin : ∀ nm g, inGroup st nm g → nm ∈ groupNames g.1 es).
  { intros nm g. unfold inGroup. rewrite Hgr. case_decide; [done|].
    rewrite lookup_empty. simpl. intros Hn. by apply elem_of_nil in Hn. }
  assert (Hknown : groupsKnown st gs).
  { intros g Hg. apply (zip_fulfilled_elem d req _ _ _ Hall) in Hg as (e0 & He0 & Hk0 & _).
    apply firstFetchers_elem in He0 as (He0 & Hrf0 & _).
    exists (groupNames g.1 es). split_and!.
    - rewrite Hgr, decide_True; [done|]. apply fetchKeys_elem. eauto.
    - intros Hnil. assert (Hn : endpointName e0 ∈ groupNames g.1 es)
        by (apply groupNames_elem; eauto 6).
      rewrite Hnil in Hn. by apply elem_of_nil in Hn.
    - intros nm (e1 & He1 & _ & _ & <-)%groupNames_elem.
      destruct (lastNamed_is_Some (endpointName e1) es) as [e2 He2].
      { apply list_elem_of_fmap. eauto. }
      exists e2. rewrite Hem, He2. split; [done|].
      apply lastNamed_elem in He2 as [He2 _].
      rewrite Forall_forall in Hel. destruct (eligible_models e2) as [m ->]; [|done].
      by apply Hel. }
  rewrite bind_run.
  destruct (distributeGroups d gs st (recordFetches calls w) Hknown)
    as (st' & Hrun2 & _ & _ & Hout & _).
  pose proof (distributeGroups_keeps_entries d gs st _ st' _ Hknown Hrun2) as Hkeep.
  rewrite Hrun2. intros [= <- <-]. exists st, st'. rewrite resultModels_result.
  split_and!; [done | done | | done].
  intros nm [->|Hstatic]; apply Hout; [by left | right].
  intros g _ (e1 & He1 & Hrf1 & _ & Hn1)%Hin%groupNames_elem.
  rewrite (Hstatic e1 He1 Hn1) in Hrf1. done.
Qed.

Lemma resolveEndpoints_entries req d mc0 es w r w' :
  Forall (λ e, eligible e = true) es →
  resolveEndpoints req d mc0 es w = (Normal r, w') →
  ∀ nm, (nm ∈ endpointName <$> es → nm ≠ "__proto__" →
           is_Some (resultModels r !! nm)) ∧
        (nm ∉ endpointName <$> es ∨ nm = "__proto__" →
           resultModels r !! nm = mc0 !! nm).
Proof.
  intros Hel Hrun nm.
  destruct (resolveEndpoints_inside req d mc0 es w r w' Hel Hrun)
    as (st & st' & -> & Hmc & Hout & Hkeep).
  split.
  - intros Hnm Hp. apply Hkeep. rewrite Hmc.
    destruct (lastNamed_is_Some nm es Hnm) as [e ->].
    rewrite decide_False by done. by eexists.
  - intros [Hnm|Hp].
    + rewrite Hout, Hmc, (lastNamed_None nm es Hnm); [done|].
      right. intros e He <-. exfalso. apply Hnm, list_elem_of_fmap. eauto.
    + subst nm. rewrite Hout, Hmc by (by left). by destruct (lastNamed _ _).
Qed.

Lemma loadConfigModels_entries req d w r w' :
  loadConfigModels req d w = (Normal r, w') →
  ∀ nm, (nm ∈ endpointName <$> eligibleEndpoints req → nm ≠ "__proto__" →
           is_Some (resultModels r !! nm)) ∧
        (nm ∉ endpointName <$> eligibleEndpoints req ∨ nm = "__proto__" →
           resultModels r !! nm = configuredAzure req !! nm).
Proof.
  unfold loadConfigModels, eligibleEndpoints, configuredAzure.
  destruct (getAppConfig _) as [cfg|]; [destruct (endpoints_custom cfg) as [custom|]|].
  - apply resolveEndpoints_entries, customEndpoints_eligible.
  - intros [= <- <-] nm. rewrite resultModels_result. split; [|done].
    by intros ?%elem_of_nil.
  - intros [= <- <-] nm. rewrite resultModels_result. split; [|done].
    by intros ?%elem_of_nil.
Qed.

(** X5: names need not be unique for an endpoint that is not fetched for.
    When several eligible endpoints are registered under one name other
    than ["__proto__"] and none of them is fetched for, the name ends with
    the default list, as identifier strings, of the one declared last. *)
Theorem last_declaration_wins req d w r w' nm e :
  loadConfigModels req d w = (Normal r, w') →
  lastNamed nm (eligibleEndpoints req) = Some e → nm ≠ "__proto__" →
  (∀ e', e' ∈ eligibleEndpoints req → endpointName e' = nm → requiresFetch e' = false) →
  resultModels r !! nm = Some (staticModels e).
Proof.
  unfold loadConfigModels, eligibleEndpoints.
  destruct (getAppConfig _) as [cfg|]; [destruct (endpoints_custom cfg) as [custom|]|];
    [|done..].
  intros Hrun Hlast Hname Hstatic.
  destruct (resolveEndpoints_inside _ _ _ _ _ _ _ (customEndpoints_eligible custom) Hrun)
    as (st & st' & -> & Hmc & Hout & _).
  rewrite Hout, Hmc, Hlast, decide_False by (done || by right).
  apply lastNamed_elem in Hlast as [He Hnm]. by rewrite (Hstatic e He Hnm).
Qed.

(** X6: in the config [loadConfigModels] returns every eligible endpoint
    whose name is not ["__proto__"] has an entry under its name, and every
    other name has exactly the Azure entry of the configuration, or none:
    endpoints that did not pass the filter leave no trace, an endpoint named
    ["__proto__"] leaves none either, and the two loops touch an Azure entry
    only when a custom endpoint has its name. *)
Theorem result_entries req d w r w' :
  loadConfigModels req d w = (Normal r, w') →
  (∀ e, e ∈ eligibleEndpoints req → endpointName e ≠ "__proto__" →
     is_Some (resultModels r !! endpointName e)) ∧
  (∀ nm, nm ∉ endpointName <$> eligibleEndpoints req ∨ nm = "__proto__" →
     resultModels r !! nm = configuredAzure req !! nm) ∧
  (∀ nm, nm ≠ "__proto__" →
     (is_Some (resultModels r !! nm) ↔
      is_Some (configuredAzure req !! nm) ∨
      nm ∈ endpointName <$> eligibleEndpoints req)).
Proof.
  intros Hrun. pose proof (loadConfigModels_entries req d w r w' Hrun) as Hnm.
  split_and!.
  - intros e He. apply Hnm, list_elem_of_fmap. eauto.
  - intros nm. apply Hnm.
  - intros nm Hp. destruct (Hnm nm) as [Hin Hout].
    destruct (decide (nm ∈ endpointName <$> eligibleEndpoints req)) as [Hd|Hd].
    + split; [by right | intros _; by apply Hin].
    + rewrite (Hout (or_introl Hd)). split; [by left | by intros [?|?]].
Qed.

(** X7: [loadConfigModels] ends in one of three ways.  When the first loop
    meets an endpoint to fetch for whose unique key names a member of
    [Object.prototype], it throws the [TypeError] of line 92.  Otherwise the
    fetches alone decide: it returns when every issued fetch is fulfilled,
    and throws the error of a rejected fetch when one rejects.  Nothing else
    in the two loops throws: no group and no endpoint they read is
    missing. *)
Theorem resolution_outcomes req d w :
  match (loadConfigModels req d w).1 with
  | Normal r => plainKeys req ∧ allFulfilled req d
  | Throw err =>
      (¬ plainKeys req ∧ err = notAFunction) ∨
      (plainKeys req ∧ ∃ t, Rejected t err ∈ issuedPromises req d)
  end.
Proof.
  destruct (loadConfigModels_run req d w) as (r & -> & Hr). simpl.
  case_decide as Hreached.
  - apply plainKeys_reached in Hreached.
    destruct (Promise_all (issuedPromises req d)) as [datas|err] eqn:Hall.
    + destruct Hr as (mc & -> & _). apply Promise_all_Normal in Hall.
      split; [done|].
      intros p Hp. unfold issuedPromises in Hall.
      apply list_elem_of_lookup in Hp as [i Hi].
      apply (f_equal (.!! i)) in Hall. rewrite !list_lookup_fmap, Hi in Hall.
      simpl in Hall. destruct (datas !! i) as [data|]; [|done].
      exists data. by injection Hall.
    + subst r. right. apply Promise_all_Throw in Hall as (t & Hin & _). eauto.
  - subst r. left. split; [|done]. by rewrite plainKeys_reached.
Qed.

Lemma firstFetchers_none seen es :
  (∀ e, e ∈ es → requiresFetch e = false) → firstFetchers seen es = [].
Proof.
  revert seen. induction es as [|e es IH]; intros seen Hes; [done|].
  rewrite firstFetchers_cons, (Hes e) by apply list_elem_of_here. simpl.
  apply IH. intros e' He'. by apply Hes, list_elem_of_further.
Qed.

(** X8: when no eligible endpoint is fetched for, the resolution cannot
    fail: it returns without calling the fetch collaborator, with empty
    model details, and (names being unique) every endpoint not named
    ["__proto__"] has its default list as identifier strings. *)
Theorem no_fetch_no_failure req d w :
  (∀ e, e ∈ eligibleEndpoints req → requiresFetch e = false) →
  ∃ mc, loadConfigModels req d w = (Normal (result d mc ∅), w) ∧
    (uniqueNames req → ∀ e, e ∈ eligibleEndpoints req →
       endpointName e ≠ "__proto__" →
       mc !! endpointName e =
         Some (ModelId <$> (modelName <$> default [] (models e ≫= models_default)))).
Proof.
  intros Hnone.
  assert (Hplain : plainKeys req).
  { intros e He Hrf. by rewrite (Hnone e He) in Hrf. }
  destruct (loadConfigModels_plain req d w Hplain) as (r & Hrun & Hr).
  assert (Hcalls : issuedCalls req = []).
  { unfold issuedCalls. rewrite firstFetchers_none; [done|].
    intros e He%reached_elem. by apply Hnone. }
  unfold issuedPromises in Hr. rewrite Hcalls, recordFetches_nil in *. simpl in Hr.
  destruct Hr as (mc & -> & Hmc). exists mc. split; [done|].
  intros Hnd e He Hp. destruct (Hmc Hnd e He Hp) as [Hstatic _]. by apply Hstatic, Hnone.
Qed.


(** X9: on a miss on which no unique key names a member of
    [Object.prototype] and no fetch rejects, [loadModels] returns and stores
    the defaults with the custom config laid over them: a name the custom
    config has an entry for gets that entry, even when the default provider
    has another one, every other name keeps the entry of the default
    provider, and the model details are those of the custom result. *)
Theorem custom_overrides_defaults req d w dm :
  cache w !! cacheKey d = None → loadDefaultModels req = Normal dm →
  plainKeys req → allFulfilled req d →
  ∃ custom r w0 w',
    loadConfigModels req d (callLoadDefaultModels req w).2 = (Normal custom, w0) ∧
    loadModels req d w = (Normal r, w') ∧
    cache w' = <[cacheKey d := r]> (cache w) ∧
    (∀ nm, resultModels r !! nm =
           match resultModels custom !! nm with
           | Some l => Some l
           | None => dm !! nm
           end) ∧
    result_modelDetails r = result_modelDetails custom.
Proof.
  intros Hmiss Hdm Hplain Hall.
  destruct (resolution_returns req d (callLoadDefaultModels req w).2 Hplain Hall)
    as (custom & datas & Hrun & _ & Hshape & _).
  rewrite (loadModels_miss req d w dm Hmiss Hdm), Hrun.
  eexists custom, _, _, _. split; [done|]. split; [done|]. split; [done|].
  rewrite Hshape. destruct d; simpl; (split; [|done]);
    intros nm; unfold spread; rewrite lookup_union;
    by destruct (resultModels custom !! nm), (dm !! nm).
Qed.



Lemma firstFetchers_first seen e es :
  e ∈ firstFetchers seen es →
  ∃ pre post, es = pre ++ e :: post ∧
    ∀ e', e' ∈ pre → requiresFetch e' = true → uniqueKey e' ≠ uniqueKey e.
Proof.
  revert seen. induction es as [|x es IH]; intros seen.
  - by intros ?%elem_of_nil.
  - rewrite firstFetchers_cons.
    destruct (requiresFetch x && bool_decide (uniqueKey x ∉ seen)) eqn:Hx.
    + intros [->|Hin]%elem_of_cons.
      * exists [], es. split; [done|]. by intros e' ?%elem_of_nil.
      * pose proof (firstFetchers_elem _ _ _ Hin) as (_ & _ & Hnew).
        destruct (IH _ Hin) as (pre & post & -> & Hpre).
        exists (x :: pre), post. split; [done|].
        intros e' [->|He']%elem_of_cons Hrf; [|by apply Hpre].
        intros Heq. apply Hnew, elem_of_app. right. rewrite Heq.
        apply list_elem_of_here.
    + intros Hin. pose proof (firstFetchers_elem _ _ _ Hin) as (_ & _ & Hnew).
      destruct (IH _ Hin) as (pre & post & -> & Hpre).
      exists (x :: pre), post. split; [done|].
      intros e' [->|He']%elem_of_cons Hrf; [|by apply Hpre].
      rewrite Hrf in Hx. simpl in Hx. apply bool_decide_eq_false in Hx.
      intros Heq. apply Hnew. rewrite <-Heq. by apply dec_stable.
Qed.

(** X11: every fetch call [loadConfigModels] makes is made for an eligible
    endpoint with [models.fetch] set and neither credential user provided,
    the first one in declaration order to have its unique key; the call
    carries that endpoint's normalized name, resolved apiKey and baseURL,
    headers, [directEndpoint] and [userIdQuery], and the user of the
    request. *)
Theorem fetch_call_provenance req d w :
  ∃ calls, fetchCalls (loadConfigModels req d w).2 = fetchCalls w ++ calls ∧
    ∀ p, p ∈ calls →
      ∃ e m pre post,
        eligibleEndpoints req = pre ++ e :: post ∧
        (∀ e', e' ∈ pre → requiresFetch e' = true → uniqueKey e' ≠ uniqueKey e) ∧
        models e = Some m ∧ models_fetch m = true ∧
        isUserProvided (extractEnvVariable (apiKey e)) = false ∧
        isUserProvided (extractEnvVariable (baseURL e)) = false ∧
        p = {| fp_name := normalizeEndpointName (name e);
               fp_apiKey := extractEnvVariable (apiKey e);
               fp_baseURL := extractEnvVariable (baseURL e);
               fp_user := user_id (user req);
               fp_userObject := user req;
               fp_headers := headers e;
               fp_direct := directEndpoint e;
               fp_userIdQuery := models_userIdQuery m |}.
Proof.
  rewrite loadConfigModels_world.
  exists (issuedCalls req). split; [done|].
  unfold issuedCalls. intros p (e & -> & He)%list_elem_of_fmap.
  destruct (firstFetchers_first _ _ _ He) as (pre & post & Hes & Hpre).
  destruct (reached_prefix (eligibleEndpoints req)) as [rest Hrest].
  apply firstFetchers_elem in He as (_ & Hrf & _).
  destruct (requiresFetch_not_userProvided e Hrf) as [Hkey Hurl].
  apply requiresFetch_models in Hrf as (m & Hm & Hf).
  exists e, m, pre, (post ++ rest). split_and!; try done.
  - rewrite Hrest at 1. rewrite Hes. by rewrite <-app_assoc.
  - unfold fetchable in Hf. by destruct (models_fetch m).
  - unfold fetchParamsOf. by rewrite Hm.
Qed.

(** X12: plain and detailed resolution agree on the models when the two
    fetch collaborators report the same lists: if no unique key names a
    member of [Object.prototype], every issued call resolves in both modes
    and the list read from its plain result is the list read from its
    detailed result, the two results have the same models config. *)
Theorem modes_agree req w w' :
  uniqueNames req → plainKeys req → allFulfilled req false → allFulfilled req true →
  (∀ p data data', p ∈ issuedCalls req →
     fetchModels p = Fulfilled data → fetchModelsWithDetails p = Fulfilled data' →
     fetchedList false data = fetchedList true data') →
  ∃ mc md, (loadConfigModels req false w).1 = Normal (Plain mc) ∧
           (loadConfigModels req true w').1 = Normal (Detailed mc md).
Proof.
  intros Hnd Hkeys Hplain Hdetailed Hsame.
  destruct (resolution_returns req false w Hkeys Hplain)
    as (r1 & ds1 & Hrun1 & _ & Hs1 & Hr1).
  destruct (resolution_returns req true w' Hkeys Hdetailed)
    as (r2 & ds2 & Hrun2 & _ & Hs2 & Hr2).
  assert (Hmodels : resultModels r2 = resultModels r1).
  { apply map_eq. intros nm.
    destruct (decide (nm ∈ endpointName <$> eligibleEndpoints req ∧ nm ≠ "__proto__"))
      as [[Hnm Hp]|Hnm].
    - apply list_elem_of_fmap in Hnm as (e & -> & He).
      destruct (Hr1 Hnd e He Hp) as [Hst1 Hf1]. destruct (Hr2 Hnd e He Hp) as [Hst2 Hf2].
      destruct (requiresFetch e) eqn:Hrf; [|by rewrite Hst1, Hst2].
      destruct (Hf1 eq_refl) as (p1 & d1 & Hp1 & Hk1 & Hd1 & ->).
      destruct (Hf2 eq_refl) as (p2 & d2 & Hp2 & Hk2 & Hd2 & ->).
      assert (p2 = p1) as ->.
      { assert (Hnodup : NoDup (callKey <$> issuedCalls req))
          by (rewrite issuedCalls_keys; apply firstSeen_NoDup).
        apply list_elem_of_lookup in Hp1 as [i Hi], Hp2 as [j Hj].
        assert (j = i) as ->; [|congruence].
        eapply NoDup_lookup; [exact Hnodup|..]; rewrite list_lookup_fmap.
        - by rewrite Hj.
        - rewrite Hi. simpl. congruence. }
      unfold mergedModels. by rewrite (Hsame p1 d1 d2 Hp1 Hd1 Hd2).
    - assert (Hout : nm ∉ endpointName <$> eligibleEndpoints req ∨ nm = "__proto__").
      { destruct (decide (nm = "__proto__")); [by right|]. left. intros ?. by apply Hnm. }
      destruct (loadConfigModels_entries req false w r1 _ Hrun1 nm) as [_ Hout1].
      destruct (loadConfigModels_entries req true w' r2 _ Hrun2 nm) as [_ Hout2].
      by rewrite Hout1, Hout2. }
  exists (resultModels r1), (result_modelDetails r2). rewrite Hrun1, Hrun2. simpl.
  split.
  - by destruct r1.
  - rewrite <-Hmodels. by destruct r2.
Qed.


End ResolutionFacts.

(** * The properties on the scenarios *)

Section Scenarios.
Import Scenario.

(** Decidable facts about a scenario hold by evaluation. *)
Ltac by_evaluation := refine (bool_decide_unpack _ _); vm_compute; exact I.

(** No unique key of the scenario names a member of [Object.prototype]. *)
Ltac plain_keys := apply plainKeys_reached; vm_compute; reflexivity.

(** C1 on [inheritedKey]: [K] is eligible and is fetched for, its unique
    key is ["__proto__"], so that there is one distinct FetchKey; the first
    loop reads [Object.prototype] under that key, makes no fetch call and
    throws at [push]. *)
Theorem inherited_key_not_fetched :
  let C := inheritedKey in
  eligibleEndpoints request = [endpointK] ∧
  requiresFetch endpointK = true ∧
  uniqueKey endpointK = "__proto__" ∧
  size (list_to_set (fetchKeys (eligibleEndpoints request)) : gset string) = 1 ∧
  loadConfigModels request false emptyWorld = (Throw notAFunction, emptyWorld) ∧
  length (fetchCalls (loadConfigModels request false emptyWorld).2) = 0.
Proof. simpl. split_and!; vm_compute; reflexivity. Qed.

(** X20 on [threeEndpoints]: three endpoints with two keys make two calls,
    in the order the keys are first seen. *)
Example three_endpoints_run :
  @callKey <$> fetchCalls (@loadConfigModels _ threeEndpoints request false emptyWorld).2
    = ["https://x__K"; "https://c__KC"] ∧
  fp_name <$> fetchCalls (@loadConfigModels _ threeEndpoints request false emptyWorld).2
    = ["A"; "C"].
Proof. split; vm_compute; reflexivity. Qed.

(** C2 as amended, on [sharedKey]: one call is made for the key of [A] and
    [B], and both get the two models it returns. *)
Lemma shared_key_shared_list_witness :
  ∃ calls,
    fetchCalls (@loadConfigModels _ sharedKey request false emptyWorld).2 = [] ++ calls ∧
    length (filter (λ p, callKey p = "https://x__K") calls) = 1 ∧
    ∃ r, (@loadConfigModels _ sharedKey request false emptyWorld).1 = Normal r ∧
      resultModels r !! "A" = Some [ModelId "m1"; ModelId "m2"] ∧
      resultModels r !! "B" = Some [ModelId "m1"; ModelId "m2"].
Proof.
  destruct (@shared_key_shared_list _ sharedKey request false emptyWorld
              endpointA endpointB) as (calls & Hcalls & Hone & Hlists).
  - by_evaluation.
  - plain_keys.
  - by_evaluation.
  - by_evaluation.
  - reflexivity.
  - reflexivity.
  - reflexivity.
  - reflexivity.
  - vm_compute. discriminate.
  - vm_compute. discriminate.
  - vm_compute. discriminate.
  - exists calls. split; [exact Hcalls|]. split; [exact Hone|].
    apply (Hlists (DataList [ModelId "m1"; ModelId "m2"]) (ModelId "m1") [ModelId "m2"]).
    + intros p _. eexists. reflexivity.
    + intros p _ _. reflexivity.
    + reflexivity.
Defined.

(** C2 as stated fails on [sharedKeyEmpty], where the one fetch for [A] and
    [B] returns the empty list and each of them is left with its own
    default list, and on [sharedUserKey], where the shared apiKey is user
    provided, no fetch is made and each has its own default list. *)
Lemma shared_key_empty_fetch_counterexample :
  (@sharesKey _ sharedKeyEmpty endpointA' endpointB' ∧
   ∃ mc w', @loadConfigModels _ sharedKeyEmpty request false emptyWorld
              = (Normal (Plain mc), w') ∧
     length (fetchCalls w') = 1 ∧
     mc !! "A" = Some [ModelId "a"] ∧ mc !! "B" = Some [ModelId "b"] ∧
     mc !! "A" ≠ mc !! "B") ∧
  (@sharesKey _ sharedUserKey endpointA'' endpointB'' ∧
   ∃ mc w', @loadConfigModels _ sharedUserKey request false emptyWorld
              = (Normal (Plain mc), w') ∧
     length (fetchCalls w') = 0 ∧
     mc !! "A" = Some [ModelId "a"] ∧ mc !! "B" = Some [ModelId "b"] ∧
     mc !! "A" ≠ mc !! "B").
Proof.
  split; (split;
    [ unfold sharesKey; split_and!; try reflexivity; vm_compute; discriminate
    | eexists _, _; split; [vm_compute; reflexivity|];
      split_and!; try reflexivity; vm_compute; discriminate ]).
Qed.

(** C3 on [protoNameEmptyFetch]: the endpoint is fetched for, its fetch
    returns the empty list and its default is [d1]; the assignment of the
    default under its name ["__proto__"] replaces the prototype of
    [modelsConfig], and the returned config has no list for it. *)
Theorem proto_name_loses_fallback :
  let C := protoNameEmptyFetch in
  eligibleEndpoints request = [endpointProto] ∧
  requiresFetch endpointProto = true ∧
  endpointName endpointProto = "__proto__" ∧
  fetchModels (fetchParamsOf request endpointProto) = Fulfilled (DataList []) ∧
  models endpointProto ≫= models_default = Some [ModelId "d1"] ∧
  ∃ w', loadConfigModels request false emptyWorld = (Normal (Plain ∅), w') ∧
    fetchCalls w' = [fetchParamsOf request endpointProto].
Proof.
  simpl. split_and!; try (vm_compute; reflexivity).
  eexists. split; vm_compute; reflexivity.
Qed.

(** C4 on [maskedFailure]: the fetch for [C] is called and rejects with
    [boom]; the first loop then meets [K], whose unique key is
    ["__proto__"], and throws: the resolution and [loadModels] end with the
    [TypeError], not with the error of the fetch, and the controller sends
    the message of the [TypeError]. *)
Theorem inherited_key_masks_fetch_failure :
  let C := maskedFailure in
  fetchCalls (loadConfigModels request false emptyWorld).2
    = [fetchParamsOf request endpointC] ∧
  fetchModels (fetchParamsOf request endpointC) = Rejected 7 boom ∧
  (loadConfigModels request false emptyWorld).1 = Throw notAFunction ∧
  (loadModels request false emptyWorld).1 = Throw notAFunction ∧
  notAFunction ≠ boom ∧
  (modelController request emptyWorld).1 =
    {| status := 500;
       body := SendError "uniqueKeyToEndpointsMap[uniqueKey].push is not a function" |}.
Proof. simpl. split_and!; try (vm_compute; reflexivity). discriminate. Qed.

(** C5 on [sharedKey]: the second call is served from the slot the first
    one filled. *)
Lemma cache_round_trip_witness :
  let r := Plain {[ "A" := [ModelId "m1"; ModelId "m2"];
                    "B" := [ModelId "m1"; ModelId "m2"] ]} in
  let w1 := (@loadModels _ sharedKey request false emptyWorld).2 in
  cache w1 !! @cacheKey _ sharedKey false = Some r ∧
  (∀ req' w2, cache w2 !! @cacheKey _ sharedKey false = Some r →
     @loadModels _ sharedKey req' false w2 = (Normal r, w2) ∧
     @getModelsConfig _ sharedKey req' false w2 = (Normal r, w2)) ∧
  (∀ req' w2, cache w2 !! @cacheKey _ sharedKey false = Some r →
     cache (@loadModels _ sharedKey req' (negb false) w2).2
       !! @cacheKey _ sharedKey false = Some r).
Proof.
  apply (@cache_round_trip _ sharedKey request false emptyWorld).
  - reflexivity.
  - vm_compute. reflexivity.
Defined.

(** C5 on [sharedKey], the results: two calls in a row make one call of the
    default provider and one fetch. *)
Example cache_round_trip_run :
  let w1 := (@loadModels _ sharedKey request false emptyWorld).2 in
  let w2 := (@loadModels _ sharedKey request false w1).2 in
  (@loadModels _ sharedKey request false w1).1
    = (@loadModels _ sharedKey request false emptyWorld).1 ∧
  length (defaultCalls w2) = 1 ∧ length (fetchCalls w2) = 1.
Proof. split_and!; vm_compute; reflexivity. Qed.

(** C7 as stated fails on [azureOnly]: there is no list of custom endpoints,
    and the result is not the config of the default provider. *)
Lemma no_custom_list_azure_counterexample :
  let C := azureOnly in
  customAbsent request ∧
  loadDefaultModels request = Normal {[ "openAI" := [ModelId "gpt-4o"] ]} ∧
  (loadModels request false emptyWorld).1 =
    Normal (Plain {[ "openAI" := [ModelId "gpt-4o"];
                     "azureOpenAI" := [ModelId "gpt-4-azure"] ]}) ∧
  (loadModels request false emptyWorld).1 ≠
    Normal (Plain {[ "openAI" := [ModelId "gpt-4o"] ]}).
Proof.
  simpl. split_and!; [reflexivity | reflexivity | vm_compute; reflexivity |].
  vm_compute. discriminate.
Qed.

(** C7 as amended, on [defaultsOnly]: without custom list and Azure entries
    the result is the config of the default provider. *)
Lemma no_custom_list_defaults_witness :
  ∃ w', @loadModels _ defaultsOnly request false emptyWorld
          = (Normal (Plain (spread {[ "openAI" := [ModelId "gpt-4o"] ]}
                              (@configuredAzure _ defaultsOnly request))), w') ∧
    fetchCalls w' = [] ∧
    @loadModels _ defaultsOnly request false emptyWorld
      = (Normal (Plain {[ "openAI" := [ModelId "gpt-4o"] ]}), w').
Proof.
  destruct (@no_custom_list_defaults _ defaultsOnly request false emptyWorld
              {[ "openAI" := [ModelId "gpt-4o"] ]})
    as (w' & Hrun & Hcalls & Hsame).
  - reflexivity.
  - reflexivity.
  - reflexivity.
  - exists w'. split; [exact Hrun|]. split; [exact Hcalls|].
    apply Hsame. reflexivity.
Defined.

(** C8 on [protoDetails]: the detailed results of the two providers both
    carry metadata for the id ["__proto__"]; [Object.assign] writes it with
    an assignment, which runs the setter of [__proto__], and the merged
    [modelDetails] has no entry for the id. *)
Theorem proto_id_dropped :
  let C := protoDetails in
  issuedPromises detailedRequest true =
    [Fulfilled (DataDetailed (Some [ModelId "__proto__"])
                  (Some {[ "__proto__" := "from p1" ]}));
     Fulfilled (DataDetailed (Some [ModelId "__proto__"])
                  (Some {[ "__proto__" := "from p2" ]}))] ∧
  ∃ mc md w', loadConfigModels detailedRequest true emptyWorld
                = (Normal (Detailed mc md), w') ∧
    md !! "__proto__" = None ∧ md = ∅ ∧
    mc !! "P1" = Some [ModelId "__proto__"] ∧ mc !! "P2" = Some [ModelId "__proto__"].
Proof.
  simpl. split; [vm_compute; reflexivity|].
  eexists _, _, _. split; [vm_compute; reflexivity|].
  split_and!; reflexivity.
Qed.

(** X23 on [twoProviders], the results. *)
Example two_providers_run :
  ∃ mc md, (@loadConfigModels _ twoProviders detailedRequest true emptyWorld).1
             = Normal (Detailed mc md) ∧
    @callKey <$> @issuedCalls _ twoProviders detailedRequest
      = ["https://p1__K1"; "https://p2__K2"] ∧
    md !! "shared" = Some "from p2" ∧ size md = 1.
Proof.
  eexists _, _. split; [vm_compute; reflexivity|].
  split_and!; vm_compute; reflexivity.
Qed.

(** C9 on [protoNameUserProvided]: the apiKey of the endpoint is user
    provided and no fetch is made for it, but its default list, assigned
    under its name ["__proto__"], is not in the returned config. *)
Theorem proto_name_loses_user_provided_default :
  let C := protoNameUserProvided in
  eligibleEndpoints request = [endpointProtoUser] ∧
  isUserProvided (API_KEY endpointProtoUser) = true ∧
  endpointName endpointProtoUser = "__proto__" ∧
  models endpointProtoUser ≫= models_default
    = Some [ModelSpec "m" (Some "a model"); ModelId "n"] ∧
  loadConfigModels request false emptyWorld = (Normal (Plain ∅), emptyWorld).
Proof. simpl. split_and!; vm_compute; reflexivity. Qed.

(** C10 on [protoNameStructured]: the fetch for the endpoint named
    ["__proto__"] returns the empty list and its default entry
    [{ name: "m" }] is substituted, but under that name the assignment
    replaces the prototype of [modelsConfig]: the entry is in no list of the
    output, which has the list of [S] only. *)
Theorem proto_name_loses_default_entry :
  let C := protoNameStructured in
  eligibleEndpoints request = [endpointProtoF; endpointS] ∧
  requiresFetch endpointProtoF = true ∧ requiresFetch endpointS = false ∧
  endpointName endpointProtoF = "__proto__" ∧
  fetchModels (fetchParamsOf request endpointProtoF) = Fulfilled (DataList []) ∧
  models endpointProtoF ≫= models_default = Some [ModelSpec "m" None] ∧
  ∃ w', loadConfigModels request false emptyWorld
          = (Normal (Plain {[ "S" := [ModelId "m"] ]}), w') ∧
    fetchCalls w' = [fetchParamsOf request endpointProtoF].
Proof.
  simpl. split_and!; try (vm_compute; reflexivity).
  eexists. split; vm_compute; reflexivity.
Qed.

(** C6 on [collidingKeys]: the endpoints [Q1] and [Q2] have different
    addresses and different credentials, none of which contains the
    separator, and yet one unique key; one fetch is made, with the address
    and credentials of [Q1], and [Q2] is given the models of [Q1]'s
    provider instead of its own. *)
Theorem unique_key_collision :
  let C := collidingKeys in
  BASE_URL endpointQ1 ≠ BASE_URL endpointQ2 ∧
  API_KEY endpointQ1 ≠ API_KEY endpointQ2 ∧
  String.index 0 "__" (BASE_URL endpointQ1) = None ∧
  String.index 0 "__" (API_KEY endpointQ1) = None ∧
  String.index 0 "__" (BASE_URL endpointQ2) = None ∧
  String.index 0 "__" (API_KEY endpointQ2) = None ∧
  uniqueKey endpointQ1 = uniqueKey endpointQ2 ∧
  size (list_to_set (fetchKeys (eligibleEndpoints request)) : gset string) = 1 ∧
  length (filter (λ e, requiresFetch e = true) (eligibleEndpoints request)) = 2 ∧
  fetchModels (fetchParamsOf request endpointQ2)
    = Fulfilled (DataList [ModelId "model-of-q2"]) ∧
  ∃ mc w', loadConfigModels request false emptyWorld = (Normal (Plain mc), w') ∧
    fetchCalls w' = [fetchParamsOf request endpointQ1] ∧
    mc !! "Q1" = Some [ModelId "model-of-q1"] ∧
    mc !! "Q2" = Some [ModelId "model-of-q1"].
Proof.
  simpl. split_and!; try (vm_compute; (reflexivity || discriminate)).
  eexists _, _. split; [vm_compute; reflexivity|].
  split_and!; reflexivity.
Qed.

(** X1 on [sharedKey], from the empty cache. *)
Lemma loadModels_keeps_shape_witness :
  @wellShaped _ sharedKey
    (cache (@loadModels _ sharedKey detailedRequest true emptyWorld).2) ∧
  ∀ r, (@loadModels _ sharedKey detailedRequest true emptyWorld).1 = Normal r →
       isDetailed r = true.
Proof.
  apply (@loadModels_keeps_shape _ sharedKey detailedRequest true emptyWorld).
  intros d r Hslot. vm_compute in Hslot. discriminate.
Defined.

(** X3 on [failingDefaults]: the request ends with the error of the
    default provider; no fetch is made for [C]. *)
Lemma default_failure_propagates_witness :
  ∃ w', @loadModels _ failingDefaults request false emptyWorld = (Throw noDefaults, w') ∧
    cache w' = ∅ ∧ fetchCalls w' = [] ∧
    ∃ w'', @modelController _ failingDefaults request emptyWorld =
             ({| status := 500; body := SendError "defaults unavailable" |}, w'') ∧
      cache w'' = ∅ ∧ fetchCalls w'' = [].
Proof.
  apply (@default_failure_propagates _ failingDefaults request false emptyWorld noDefaults).
  - reflexivity.
  - reflexivity.
  - reflexivity.
Defined.

(** X5 on [duplicateNames]: [S] ends with the list of the second
    declaration. *)
Lemma last_declaration_wins_witness :
  ∃ r w', @loadConfigModels _ duplicateNames request false emptyWorld = (Normal r, w') ∧
    resultModels r !! "S" = Some [ModelId "t1"; ModelId "t2"].
Proof.
  eexists _, _. split; [vm_compute; reflexivity|].
  refine (eq_trans
    (@last_declaration_wins _ duplicateNames request false emptyWorld _ _ "S" endpointS'
       _ _ _ _) _).
  - vm_compute. reflexivity.
  - vm_compute. reflexivity.
  - discriminate.
  - intros e' He' _. vm_compute in He'.
    apply elem_of_cons in He' as [->|He']; [reflexivity|].
    apply elem_of_cons in He' as [->|He']; [reflexivity|].
    by apply elem_of_nil in He'.
  - reflexivity.
Defined.

(** X6 on [overlapping]: [A] and [B] have entries, the endpoint without
    apiKey has none, the Azure entry is kept. *)
Lemma result_entries_witness :
  let C := overlapping in
  let r : ModelsResult string :=
    Plain {[ "azureOpenAI" := [ModelId "gpt-4-azure"];
             "A" := [ModelId "m1"; ModelId "m2"];
             "B" := [ModelId "m1"; ModelId "m2"] ]} in
  (∀ e, e ∈ eligibleEndpoints request → endpointName e ≠ "__proto__" →
     is_Some (resultModels r !! endpointName e)) ∧
  (∀ nm, nm ∉ endpointName <$> eligibleEndpoints request ∨ nm = "__proto__" →
     resultModels r !! nm = configuredAzure request !! nm) ∧
  (∀ nm, nm ≠ "__proto__" →
     (is_Some (resultModels r !! nm) ↔
      is_Some (configuredAzure request !! nm) ∨
      nm ∈ endpointName <$> eligibleEndpoints request)).
Proof.
  apply (@result_entries _ overlapping request false emptyWorld _
           (@loadConfigModels _ overlapping request false emptyWorld).2).
  vm_compute. reflexivity.
Defined.

(** X6 on [overlapping], the results: the endpoint [N] without apiKey is
    not in the result. *)
Example overlapping_run :
  ∃ mc, (@loadConfigModels _ overlapping request false emptyWorld).1 = Normal (Plain mc) ∧
    mc !! "N" = None ∧ mc !! "azureOpenAI" = Some [ModelId "gpt-4-azure"] ∧ size mc = 3.
Proof. eexists. split; [vm_compute; reflexivity|]. split_and!; reflexivity. Qed.

(** X7 on the scenarios: the three ways a resolution ends. *)
Example resolution_outcomes_run :
  (@loadConfigModels _ inheritedKey request false emptyWorld).1 = Throw notAFunction ∧
  (@loadConfigModels _ failingFetch request false emptyWorld).1 = Throw boom ∧
  (@loadConfigModels _ emptyFetch request false emptyWorld).1
    = Normal (Plain {[ "C" := [ModelId "d1"] ]}).
Proof. split_and!; vm_compute; reflexivity. Qed.

(** X8 on [staticOnly]: the resolution returns although every fetch would
    reject. *)
Lemma no_fetch_no_failure_witness :
  ∃ mc, @loadConfigModels _ staticOnly request false emptyWorld
          = (Normal (Plain mc), emptyWorld) ∧
    mc !! "U" = Some [ModelId "m"; ModelId "n"] ∧ mc !! "S" = Some [ModelId "m"].
Proof.
  destruct (@no_fetch_no_failure _ staticOnly request false emptyWorld)
    as (mc & Hrun & Hlists).
  - intros e He. vm_compute in He.
    apply elem_of_cons in He as [->|He]; [reflexivity|].
    apply elem_of_cons in He as [->|He]; [reflexivity|].
    by apply elem_of_nil in He.
  - exists mc. split; [exact Hrun|]. split.
    + apply (Hlists ltac:(by_evaluation) endpointU); [by_evaluation | discriminate].
    + apply (Hlists ltac:(by_evaluation) endpointS); [by_evaluation | discriminate].
Defined.

(** X9 on [overlapping]: the custom [A] replaces the [A] of the default
    provider, [openAI] is kept. *)
Lemma custom_overrides_defaults_witness :
  ∃ custom r w0 w',
    @loadConfigModels _ overlapping request false
        (@callLoadDefaultModels _ overlapping request emptyWorld).2 = (Normal custom, w0) ∧
    @loadModels _ overlapping request false emptyWorld = (Normal r, w') ∧
    cache w' = <[@cacheKey _ overlapping false := r]> ∅ ∧
    (∀ nm, resultModels r !! nm =
           match resultModels custom !! nm with
           | Some l => Some l
           | None => ({[ "A" := [ModelId "old"]; "openAI" := [ModelId "gpt-4o"] ]}
                        : ModelsConfig) !! nm
           end) ∧
    result_modelDetails r = result_modelDetails custom.
Proof.
  apply (@custom_overrides_defaults _ overlapping request false emptyWorld).
  - reflexivity.
  - reflexivity.
  - plain_keys.
  - intros p _. eexists. reflexivity.
Defined.

(** X9 on [overlapping], the results. *)
Example overlapping_merge_run :
  ∃ mc, (@loadModels _ overlapping request false emptyWorld).1 = Normal (Plain mc) ∧
    mc !! "A" = Some [ModelId "m1"; ModelId "m2"] ∧
    mc !! "openAI" = Some [ModelId "gpt-4o"].
Proof. eexists. split; [vm_compute; reflexivity|]. split; reflexivity. Qed.


(** X12 on [sameLists]: both modes give [C] the list [c1] and [S] its
    default. *)
Lemma modes_agree_witness :
  ∃ mc md, (@loadConfigModels _ sameLists request false emptyWorld).1 = Normal (Plain mc) ∧
           (@loadConfigModels _ sameLists request true emptyWorld).1
             = Normal (Detailed mc md).
Proof.
  apply (@modes_agree _ sameLists request emptyWorld emptyWorld).
  - by_evaluation.
  - plain_keys.
  - intros p _. eexists. reflexivity.
  - intros p _. eexists. reflexivity.
  - intros p data data' _ [= <-] [= <-]. reflexivity.
Defined.

(** X20 on [threeEndpoints]: two calls for two distinct keys. *)
Lemma one_fetch_per_key_witness :
  ∃ calls,
    fetchCalls (@loadConfigModels _ threeEndpoints request false emptyWorld).2
      = [] ++ calls ∧
    length calls = 2 ∧ NoDup (callKey <$> calls).
Proof.
  destruct (@one_fetch_per_key _ threeEndpoints request false emptyWorld)
    as (calls & Hcalls & Hlen & Hnd).
  - plain_keys.
  - exists calls. split; [exact Hcalls|]. split; [|exact Hnd].
    rewrite Hlen. vm_compute. reflexivity.
Defined.

(** X21 on [emptyFetch]: the empty fetch result leaves [C] with its default
    [d1]. *)
Lemma empty_fetch_falls_back_witness :
  ∃ r, (@loadConfigModels _ emptyFetch request false emptyWorld).1 = Normal r ∧
    resultModels r !! "C" = Some [ModelId "d1"].
Proof.
  apply (@empty_fetch_falls_back _ emptyFetch request false emptyWorld
           endpointC (DataList [])).
  - by_evaluation.
  - plain_keys.
  - intros p _. eexists. reflexivity.
  - by_evaluation.
  - reflexivity.
  - discriminate.
  - intros p _ _. reflexivity.
Defined.

(** X22 on [failingFetch]: the rejection of the fetch for [C] ends the
    request with status 500 and leaves the cache empty. *)
Lemma fetch_failure_propagates_witness :
  ∃ t' err', Rejected t' err' ∈ @issuedPromises _ failingFetch request false ∧
    (∀ t'' err'', Rejected t'' err'' ∈ @issuedPromises _ failingFetch request false →
       (t' ≤ t'')%nat) ∧
    (∀ w0, ∃ w', @loadConfigModels _ failingFetch request false w0 = (Throw err', w')
                 ∧ cache w' = cache w0) ∧
    (∃ w', @loadModels _ failingFetch request false emptyWorld = (Throw err', w')
           ∧ cache w' = cache emptyWorld) ∧
    (∃ w', @modelController _ failingFetch request emptyWorld =
             ({| status := 500; body := SendError (message err') |}, w')
           ∧ cache w' = cache emptyWorld).
Proof.
  apply (@fetch_failure_propagates _ failingFetch request false emptyWorld 7 boom
           {[ "openAI" := [ModelId "gpt-4o"] ]}).
  - plain_keys.
  - reflexivity.
  - reflexivity.
  - reflexivity.
  - vm_compute. apply list_elem_of_here.
Defined.

(** X22 on [twoFailures]: of two rejections the request ends with the one
    that happens first, here that of the second call. *)
Example earliest_rejection_run :
  (@loadConfigModels _ twoFailures request false emptyWorld).1 = Throw early ∧
  (@modelController _ twoFailures request emptyWorld).1 =
    {| status := 500; body := SendError "getaddrinfo ENOTFOUND p2" |}.
Proof. split; vm_compute; reflexivity. Qed.

(** X22 on [failingFetch], the results. *)
Example failing_fetch_run :
  (@modelController _ failingFetch request emptyWorld).1 =
    {| status := 500; body := SendError "connect ECONNREFUSED" |} ∧
  cache (@modelController _ failingFetch request emptyWorld).2 = ∅.
Proof. split; vm_compute; reflexivity. Qed.


(** X24 on [userProvided]: the one call made is for [C], none is made for
    [U], whose list is its default as identifier strings. *)
Lemma user_provided_never_fetched_witness :
  ∃ calls,
    fetchCalls (@loadConfigModels _ userProvided request false emptyWorld).2
      = [] ++ calls ∧
    (∀ p, p ∈ calls →
       fp_name p ≠ "U" ∧ ¬ (fp_apiKey p = "user_provided" ∧ fp_baseURL p = "https://u")) ∧
    ∃ r, (@loadConfigModels _ userProvided request false emptyWorld).1 = Normal r ∧
      resultModels r !! "U" = Some [ModelId "m"; ModelId "n"].
Proof.
  destruct (@user_provided_never_fetched _ userProvided request false emptyWorld endpointU)
    as (calls & Hcalls & Hnone & Hlist).
  - by_evaluation.
  - by_evaluation.
  - left. reflexivity.
  - exists calls. split; [exact Hcalls|]. split; [exact Hnone|].
    apply Hlist; [plain_keys | | discriminate]. intros p _. eexists. reflexivity.
Defined.

(** X25 on [structuredDefaults]: the default entry [{ name: "m" }] comes
    out as the object for [F] and as the string for [S]. *)
Lemma default_mapping_only_without_fetch_witness :
  ∃ r, (@loadConfigModels _ structuredDefaults request false emptyWorld).1 = Normal r ∧
    resultModels r !! "F" = Some [ModelSpec "m" None] ∧
    resultModels r !! "S" = Some [ModelId "m"].
Proof.
  apply (@default_mapping_only_without_fetch _ structuredDefaults request false
           emptyWorld endpointF endpointS [ModelSpec "m" None]).
  - by_evaluation.
  - plain_keys.
  - intros p _. eexists. reflexivity.
  - by_evaluation.
  - by_evaluation.
  - discriminate.
  - discriminate.
  - reflexivity.
  - reflexivity.
  - reflexivity.
  - reflexivity.
  - intros p data _ _ [= <-]. reflexivity.
Defined.

End Scenarios.

(** * Facts about the client *)

Section ClientFacts.
Context {Value : Type} (strictEq : Value → Value → bool) (MODEL_PARAMS_PREFIX : string)
  (member : string → Value) (kindOf : Value → Kind)
  (readThrough : Value → string → option Value).

#[local] Abbreviation ModelParamValues := (gmap string (option Value)).
#[local] Abbreviation TModelParameter := (TModelParameter Value).
#[local] Abbreviation TModelDetails := (TClientModelDetails Value).
#[local] Abbreviation JsObject := (JsObject Value).

(** The definitions, as equations. *)
Lemma getProp_eq (obj : ModelParamValues) (key : string) :
  getProp member obj key =
  match obj !! key with
  | Some v => v
  | None => if inherited key then Some (member key) else None
  end.
Proof. reflexivity. Qed.

Lemma getField_eq (o : JsObject) (key : string) :
  getField member readThrough o key =
  match own o !! key with
  | Some v => v
  | None =>
      match prototype o with
      | ObjectPrototype => if inherited key then Some (member key) else None
      | NoPrototype => None
      | ValuePrototype p => readThrough p key
      end
  end.
Proof. reflexivity. Qed.

Lemma setField_eq (key : string) (v : Value) (o : JsObject) :
  setField kindOf key v o =
  if decide (key = "__proto__") then
    match own o !! key, prototype o with
    | Some _, _ => {| own := <[key := Some v]> (own o); prototype := prototype o |}
    | None, NoPrototype => {| own := <[key := Some v]> (own o); prototype := prototype o |}
    | None, _ =>
        match kindOf v with
        | Object => {| own := own o; prototype := ValuePrototype v |}
        | Null => {| own := own o; prototype := NoPrototype |}
        | Primitive => o
        end
    end
  else {| own := <[key := Some v]> (own o); prototype := prototype o |}.
Proof. reflexivity. Qed.

Lemma addValue_eq (savedValues : ModelParamValues) (result : JsObject)
    (param : TModelParameter) :
  addValue member kindOf savedValues result param =
  match getProp member savedValues (param_name param) with
  | Some savedValue => setField kindOf (param_name param) savedValue result
  | None =>
      match param_default_value param with
      | Some default_value => setField kindOf (param_name param) default_value result
      | None => result
      end
  end.
Proof. reflexivity. Qed.

Lemma computeValues_eq (params : list TModelParameter) (savedValues : ModelParamValues) :
  computeValues member kindOf params savedValues =
  foldl (addValue member kindOf savedValues) emptyObject params.
Proof. reflexivity. Qed.

Lemma countActive_eq (vals : JsObject) (count : nat) (param : TModelParameter) :
  countActive strictEq member readThrough vals count param =
  if strictNe strictEq (getField member readThrough vals (param_name param)) None &&
     strictNe strictEq (getField member readThrough vals (param_name param))
       (param_default_value param)
  then S count else count.
Proof. reflexivity. Qed.

Lemma changed_eq (savedValues : ModelParamValues) (param : TModelParameter) :
  changed strictEq member savedValues param =
  match getProp member savedValues (param_name param) with
  | Some savedValue => strictNe strictEq (Some savedValue) (param_default_value param)
  | None => false
  end.
Proof. reflexivity. Qed.

#[local] Abbreviation useModelParams := (@useModelParams Value member kindOf).
#[local] Abbreviation getProp := (@getProp Value member).
#[local] Abbreviation getField := (@getField Value member readThrough).
#[local] Abbreviation setField := (@setField Value kindOf).
#[local] Abbreviation addValue := (@addValue Value member kindOf).
#[local] Abbreviation computeValues := (@computeValues Value member kindOf).
#[local] Abbreviation countActive := (@countActive Value strictEq member readThrough).
#[local] Abbreviation activeCount := (@activeParamsCount Value strictEq member readThrough).
#[local] Abbreviation changed := (@changed Value strictEq member).

Implicit Types (savedValues : ModelParamValues) (acc : JsObject) (param : TModelParameter)
  (params : list TModelParameter) (modelId : option string)
  (modelsData : option (ModelsResult TModelDetails)) (loading : bool) (nm : string).

(** *** Reads and writes *)

Lemma plain_not_proto nm : inherited nm = false → nm ≠ "__proto__".
Proof. by intros Hnm ->. Qed.

Lemma getProp_insert (obj : ModelParamValues) nm (v : option Value) :
  getProp (<[nm := v]> obj) nm = v.
Proof. rewrite getProp_eq. by rewrite lookup_insert_eq. Qed.

Lemma getProp_insert_ne (obj : ModelParamValues) nm nm' (v : option Value) :
  nm ≠ nm' → getProp (<[nm := v]> obj) nm' = getProp obj nm'.
Proof. intros. rewrite !getProp_eq. by rewrite lookup_insert_ne. Qed.

Lemma getProp_empty nm : inherited nm = false → getProp ∅ nm = None.
Proof. intros Hnm. rewrite getProp_eq. by rewrite lookup_empty, Hnm. Qed.

Lemma own_setField_ne key nm (v : Value) acc :
  nm ≠ key → own (setField key v acc) !! nm = own acc !! nm.
Proof.
  intros Hne. rewrite !setField_eq. case_decide.
  - destruct (own acc !! key), (prototype acc), (kindOf v); simpl;
      by rewrite ?lookup_insert_ne.
  - simpl. by rewrite lookup_insert_ne.
Qed.

Lemma own_setField_eq key (v : Value) acc :
  key ≠ "__proto__" → own (setField key v acc) !! key = Some (Some v).
Proof.
  intros Hkey. rewrite !setField_eq. rewrite decide_False by done.
  simpl. apply lookup_insert_eq.
Qed.

Lemma prototype_setField key (v : Value) acc :
  key ≠ "__proto__" → prototype (setField key v acc) = prototype acc.
Proof. intros Hkey. rewrite !setField_eq. by rewrite decide_False. Qed.

Lemma setField_defined key (v : Value) acc nm :
  own acc !! nm ≠ Some None → own (setField key v acc) !! nm ≠ Some None.
Proof.
  intros Hacc. destruct (decide (nm = key)) as [->|Hne].
  - rewrite !setField_eq. case_decide.
    + destruct (own acc !! key) eqn:Hown, (prototype acc), (kindOf v); simpl;
        rewrite ?lookup_insert_eq, ?Hown; done.
    + simpl. by rewrite lookup_insert_eq.
  - by rewrite own_setField_ne.
Qed.

(** Two objects with one prototype and the same own properties but under
    [nm] stay so when one property other than [nm] is assigned in both. *)
Lemma setField_agree key nm (v : Value) acc acc' :
  key ≠ nm → prototype acc = prototype acc' →
  (∀ k, k ≠ nm → own acc !! k = own acc' !! k) →
  prototype (setField key v acc) = prototype (setField key v acc') ∧
  ∀ k, k ≠ nm → own (setField key v acc) !! k = own (setField key v acc') !! k.
Proof.
  intros Hkey Hproto Hown. rewrite !setField_eq.
  destruct acc as [o p], acc' as [o' p']. simpl in *. subst p'.
  assert (Hins : ∀ k, k ≠ nm → <[key := Some v]> o !! k = <[key := Some v]> o' !! k).
  { intros k Hk. destruct (decide (k = key)) as [->|Hne].
    - by rewrite !lookup_insert_eq.
    - rewrite !lookup_insert_ne by done. by apply Hown. }
  case_decide; [|done]. rewrite <-(Hown key Hkey).
  destruct (o !! key), p, (kindOf v); simpl; done.
Qed.

(** *** The loop of [values] *)

Lemma addValue_other savedValues acc param nm :
  nm ≠ param_name param → own (addValue savedValues acc param) !! nm = own acc !! nm.
Proof.
  intros Hne. rewrite !addValue_eq.
  destruct (getProp _ _); [by rewrite own_setField_ne|].
  destruct (param_default_value param); [by rewrite own_setField_ne | done].
Qed.

Lemma addValue_own savedValues acc param :
  param_name param ≠ "__proto__" →
  own (addValue savedValues acc param) !! param_name param =
  match getProp savedValues (param_name param) with
  | Some v => Some (Some v)
  | None =>
      match param_default_value param with
      | Some v => Some (Some v)
      | None => own acc !! param_name param
      end
  end.
Proof.
  intros Hname. rewrite !addValue_eq.
  destruct (getProp _ _); [by rewrite own_setField_eq|].
  destruct (param_default_value param); [by rewrite own_setField_eq | done].
Qed.

Lemma addValue_prototype savedValues acc param :
  param_name param ≠ "__proto__" →
  prototype (addValue savedValues acc param) = prototype acc.
Proof.
  intros Hname. rewrite !addValue_eq.
  destruct (getProp _ _); [by rewrite prototype_setField|].
  destruct (param_default_value param); [by rewrite prototype_setField | done].
Qed.

Lemma addValue_defined savedValues acc param nm :
  own acc !! nm ≠ Some None → own (addValue savedValues acc param) !! nm ≠ Some None.
Proof.
  intros Hacc. rewrite !addValue_eq.
  destruct (getProp _ _); [by apply setField_defined|].
  destruct (param_default_value param); [by apply setField_defined | done].
Qed.

Lemma values_other params : ∀ savedValues acc nm,
  nm ∉ param_name <$> params →
  own (foldl (addValue savedValues) acc params) !! nm = own acc !! nm.
Proof.
  induction params as [|param params IH]; intros savedValues acc nm Hnm; [done|].
  rewrite fmap_cons, not_elem_of_cons in Hnm. destruct Hnm as [Hne Hnm].
  simpl. rewrite IH by done. by apply addValue_other.
Qed.

Lemma values_defined params : ∀ savedValues acc nm,
  own acc !! nm ≠ Some None →
  own (foldl (addValue savedValues) acc params) !! nm ≠ Some None.
Proof.
  induction params as [|param params IH]; intros savedValues acc nm Hacc; [done|].
  simpl. by apply IH, addValue_defined.
Qed.

Lemma values_prototype params : ∀ savedValues acc,
  "__proto__" ∉ param_name <$> params →
  prototype (foldl (addValue savedValues) acc params) = prototype acc.
Proof.
  induction params as [|param params IH]; intros savedValues acc Hnm; [done|].
  rewrite fmap_cons, not_elem_of_cons in Hnm. destruct Hnm as [Hne Hnm].
  simpl. rewrite IH by done. by apply addValue_prototype.
Qed.

Lemma values_saved params : ∀ savedValues acc nm v,
  nm ∈ param_name <$> params → nm ≠ "__proto__" → getProp savedValues nm = Some v →
  own (foldl (addValue savedValues) acc params) !! nm = Some (Some v).
Proof.
  induction params as [|param params IH]; intros savedValues acc nm v Hnm Hp Hv.
  - by apply elem_of_nil in Hnm.
  - simpl. destruct (decide (nm ∈ param_name <$> params)) as [Hin|Hout].
    + by apply IH.
    + rewrite fmap_cons in Hnm. apply elem_of_cons in Hnm as [->|?]; [|done].
      rewrite values_other by done. by rewrite addValue_own, Hv.
Qed.

Lemma values_own params : ∀ savedValues acc param,
  NoDup (param_name <$> params) → param ∈ params →
  param_name param ≠ "__proto__" →
  own (foldl (addValue savedValues) acc params) !! param_name param =
  match getProp savedValues (param_name param) with
  | Some v => Some (Some v)
  | None =>
      match param_default_value param with
      | Some v => Some (Some v)
      | None => own acc !! param_name param
      end
  end.
Proof.
  induction params as [|p params IH]; intros savedValues acc param Hnd Hin Hname.
  - by apply elem_of_nil in Hin.
  - rewrite fmap_cons, NoDup_cons in Hnd. destruct Hnd as [Hp Hnd]. simpl.
    apply elem_of_cons in Hin as [->|Hin].
    + rewrite values_other by done. by apply addValue_own.
    + rewrite IH by done. destruct (getProp _ _); [done|].
      destruct (param_default_value param); [done|].
      apply addValue_other. intros Heq. apply Hp. rewrite <-Heq.
      apply list_elem_of_fmap. eauto.
Qed.

Lemma values_agree params : ∀ savedValues savedValues' acc acc' nm,
  nm ≠ "__proto__" →
  (∀ k, k ≠ nm → getProp savedValues k = getProp savedValues' k) →
  prototype acc = prototype acc' →
  (∀ k, k ≠ nm → own acc !! k = own acc' !! k) →
  prototype (foldl (addValue savedValues) acc params) =
    prototype (foldl (addValue savedValues') acc' params) ∧
  ∀ k, k ≠ nm → own (foldl (addValue savedValues) acc params) !! k =
                own (foldl (addValue savedValues') acc' params) !! k.
Proof.
  induction params as [|param params IH]; intros s s' acc acc' nm Hnm Hs Hproto Hown;
    [done|].
  simpl. apply IH; try done.
  - destruct (decide (param_name param = nm)) as [Heq|Hne].
    + rewrite !addValue_prototype by (by rewrite Heq). done.
    + rewrite !addValue_eq. rewrite <-(Hs (param_name param) Hne).
      destruct (getProp _ _) as [v|].
      * by apply (setField_agree _ nm).
      * destruct (param_default_value param) as [v|]; [|done].
        by apply (setField_agree _ nm).
  - intros k Hk. destruct (decide (param_name param = nm)) as [Heq|Hne].
    + rewrite !addValue_other by (by rewrite Heq). by apply Hown.
    + rewrite !addValue_eq. rewrite <-(Hs (param_name param) Hne).
      destruct (getProp _ _) as [v|].
      * by apply (setField_agree _ nm).
      * destruct (param_default_value param) as [v|]; [|by apply Hown].
        by apply (setField_agree _ nm).
Qed.

(** What a read of [values] finds under a name that is no member of
    [Object.prototype], when no parameter is named ["__proto__"]. *)
Lemma getField_values params savedValues nm :
  "__proto__" ∉ param_name <$> params → inherited nm = false →
  getField (computeValues params savedValues) nm =
  default None (own (computeValues params savedValues) !! nm).
Proof.
  intros Hproto Hnm. rewrite getField_eq, computeValues_eq.
  rewrite values_prototype by done. simpl. rewrite Hnm.
  by destruct (own _ !! nm).
Qed.

Lemma plainNames_proto params :
  plainNames params → "__proto__" ∉ param_name <$> params.
Proof. intros Hplain (param & Heq & Hin)%list_elem_of_fmap. apply Hplain in Hin. by rewrite <-Heq in Hin. Qed.

(** The value shown for a parameter, when no parameter is named like a
    member of [Object.prototype]. *)
Lemma getField_own_param params savedValues param :
  NoDup (param_name <$> params) → plainNames params → param ∈ params →
  getField (computeValues params savedValues) (param_name param) =
  match getProp savedValues (param_name param) with
  | Some v => Some v
  | None => param_default_value param
  end.
Proof.
  intros Hnd Hplain Hin.
  rewrite getField_values by (by apply plainNames_proto || by apply Hplain).
  rewrite !computeValues_eq.
  rewrite values_own by (done || by apply plain_not_proto, Hplain).
  destruct (getProp _ _); [done|].
  by destruct (param_default_value param).
Qed.

(** X13: the values of a render have an own property for the saved value
    of every parameter that has one and is not named ["__proto__"], have
    none under a name that is not a parameter's (stale saved values are not
    copied), and have none that holds [undefined]. *)
Theorem values_saved_first modelId savedValues modelsData loading :
  let h := useModelParams modelId savedValues modelsData loading in
  (∀ nm, own (values h) !! nm ≠ Some None) ∧
  (∀ nm, nm ∉ param_name <$> parameters h → own (values h) !! nm = None) ∧
  (∀ nm v, nm ∈ param_name <$> parameters h → nm ≠ "__proto__" →
     getProp savedValues nm = Some v →
     own (values h) !! nm = Some (Some v) ∧ getField (values h) nm = Some v).
Proof.
  simpl. rewrite !computeValues_eq. split_and!.
  - intros nm. by apply values_defined.
  - intros nm Hnm. by rewrite values_other.
  - intros nm v Hnm Hp Hv. rewrite getField_eq.
    by rewrite (values_saved _ _ _ _ v).
Qed.

(** X14: when the parameter names are distinct and none of them names a
    member of [Object.prototype], the value shown for a parameter is its
    saved value, or its default value when nothing (or [undefined]) is saved
    for it, or nothing when it has no default either. *)
Theorem values_default_fallback modelId savedValues modelsData loading param :
  let h := useModelParams modelId savedValues modelsData loading in
  NoDup (param_name <$> parameters h) → plainNames (parameters h) →
  param ∈ parameters h →
  getField (values h) (param_name param) =
  match savedValues !! param_name param with
  | Some (Some v) => Some v
  | _ => param_default_value param
  end.
Proof.
  simpl. intros Hnd Hplain Hin. rewrite getField_own_param by done.
  rewrite getProp_eq. rewrite (Hplain param Hin).
  by destruct (savedValues !! param_name param) as [[v|]|].
Qed.

(** X15: after [updateParam(name, value)], for a parameter [name] other
    than ["__proto__"], the next render shows [value] for the parameter, and
    shows for every other name what it showed before; the parameters are the
    same. *)
Theorem updateParam_shown modelId savedValues modelsData loading nm v :
  let h := useModelParams modelId savedValues modelsData loading in
  let h' := useModelParams modelId (updateParam h nm (Some v)) modelsData loading in
  nm ∈ param_name <$> parameters h → nm ≠ "__proto__" →
  parameters h' = parameters h ∧
  getField (values h') nm = Some v ∧
  ∀ nm', nm' ≠ nm → getField (values h') nm' = getField (values h) nm'.
Proof.
  simpl. intros Hnm Hp. split; [done|]. split.
  - rewrite !computeValues_eq, !getField_eq.
    by rewrite (values_saved _ _ _ _ v) by (done || by rewrite getProp_insert).
  - intros nm' Hne. rewrite !computeValues_eq, !getField_eq.
    match goal with |- context [foldl ?f _ ?l] => set (params := l) end.
    destruct (values_agree params (<[nm := Some v]> savedValues) savedValues
                emptyObject emptyObject nm Hp) as [Hproto Hown]; [|done|done|].
    { intros k Hk. by apply getProp_insert_ne. }
    by rewrite Hproto, (Hown nm' Hne).
Qed.

(** *** The counter *)

Lemma count_filter (vals : JsObject) (f : TModelParameter → bool) params :
  ∀ count,
  (∀ param, param ∈ params →
     strictNe strictEq (getField vals (param_name param)) None &&
     strictNe strictEq (getField vals (param_name param)) (param_default_value param)
     = f param) →
  foldl (countActive vals) count params =
  count + length (filter (λ param, f param = true) params).
Proof.
  induction params as [|param params IH]; intros count Hcond; simpl; [lia|].
  rewrite IH by (intros p Hp; by apply Hcond, list_elem_of_further).
  rewrite countActive_eq. rewrite (Hcond param) by apply list_elem_of_here.
  rewrite filter_cons. destruct (f param); case_decide; try done; simpl; lia.
Qed.

(** X16: when the parameter names are distinct, none of them names a
    member of [Object.prototype] and no default is [NaN], the counter of the
    menu is the number of parameters that have a saved value different from
    their default value. *)
Theorem active_count modelId savedValues modelsData loading :
  let h := useModelParams modelId savedValues modelsData loading in
  NoDup (param_name <$> parameters h) → plainNames (parameters h) →
  defaultsSelfEqual strictEq (parameters h) →
  activeCount h =
  length (filter (λ param, changed savedValues param = true) (parameters h)).
Proof.
  simpl. intros Hnd Hplain Hself. unfold activeParamsCount. simpl.
  rewrite (count_filter _ (changed savedValues)); [done|].
  intros param Hin. rewrite getField_own_param by done. rewrite changed_eq.
  destruct (getProp _ _) as [v|]; [done|].
  destruct (param_default_value param) as [dv|] eqn:Hdv; [|done].
  simpl. by rewrite (Hself param dv Hin Hdv).
Qed.

(** X17: after [resetToDefaults], and for one parameter after
    [updateParam(name, undefined)], the next render shows the default value
    again; after [resetToDefaults] no parameter counts as changed.  The
    parameter names are distinct, none of them names a member of
    [Object.prototype], and no default is [NaN]. *)
Theorem reset_restores_defaults modelId savedValues modelsData loading :
  let h := useModelParams modelId savedValues modelsData loading in
  let reset := useModelParams modelId (resetToDefaults h) modelsData loading in
  NoDup (param_name <$> parameters h) → plainNames (parameters h) →
  defaultsSelfEqual strictEq (parameters h) →
  (∀ param, param ∈ parameters h →
     getField (values reset) (param_name param) = param_default_value param) ∧
  activeCount reset = 0 ∧
  (∀ param, param ∈ parameters h →
     let cleared := useModelParams modelId (updateParam h (param_name param) None)
                      modelsData loading in
     getField (values cleared) (param_name param) = param_default_value param).
Proof.
  intros h reset Hnd Hplain Hself.
  assert (Hreset : ∀ param, param ∈ parameters h →
            getField (values reset) (param_name param) = param_default_value param).
  { intros param Hin. unfold reset. simpl. rewrite getField_own_param by done.
    by rewrite getProp_empty by (by apply Hplain). }
  split_and!.
  - exact Hreset.
  - unfold activeParamsCount. rewrite (count_filter _ (λ _, false)).
    + simpl. apply length_zero_iff_nil.
      match goal with |- filter ?P ?l = [] => induction l as [|p ps IH] end; [done|].
      by rewrite filter_cons, decide_False.
    + intros param Hin. rewrite (Hreset param Hin).
      destruct (param_default_value param) as [dv|] eqn:Hdv; [|done].
      simpl. by rewrite (Hself param dv Hin Hdv).
  - intros param Hin cleared. unfold cleared. simpl.
    rewrite getField_own_param by done.
    by rewrite getProp_insert.
Qed.

(** *** The storage key *)

Lemma string_app_inj (p a b : string) : p +:+ a = p +:+ b → a = b.
Proof. induction p as [|c p IH]; simpl; [done|]. intros [= ?]. auto. Qed.

Lemma string_app_empty (p a : string) : p +:+ a = p → a = "".
Proof.
  intros Heq. apply (f_equal String.length) in Heq.
  rewrite string_length_app in Heq. destruct a; [done | simpl in Heq; lia].
Qed.

(** X18: two model ids have the same storage key only when they are the
    same id or both absent or empty: the saved values of one model are never
    read or written under the id of another one, and an absent id and the
    empty id share the bare prefix. *)
Theorem storageKey_separates (a b : option string) :
  storageKey MODEL_PARAMS_PREFIX a = storageKey MODEL_PARAMS_PREFIX b ↔
  (a ≫= λ id, if truthy id then Some id else None) =
  (b ≫= λ id, if truthy id then Some id else None).
Proof.
  unfold storageKey.
  destruct a as [a|], b as [b|]; simpl;
    repeat match goal with |- context [truthy ?x] => destruct (truthy x) eqn:? end;
    split; try done.
  - by intros ->%string_app_inj.
  - by intros [= ->].
  - intros ->%string_app_empty. done.
  - intros Heq. symmetry in Heq. apply string_app_empty in Heq as ->. done.
  - intros ->%string_app_empty. done.
  - intros Heq. symmetry in Heq. apply string_app_empty in Heq as ->. done.
Qed.

(** X19: the updates compose.  [updateParam] is [updateParams] with one
    entry; two [updateParams] in a row are one with the later entries
    winning; an update keeps every saved value it does not name, also those
    of names that are no parameter. *)
Theorem updates_compose modelId savedValues modelsData loading nm v
    (first second : ModelParamValues) :
  let h := useModelParams modelId savedValues modelsData loading in
  let h' := useModelParams modelId (updateParams h first) modelsData loading in
  updateParam h nm v = updateParams h {[ nm := v ]} ∧
  updateParams h' second = updateParams h (second ∪ first) ∧
  (∀ nm', first !! nm' = None → updateParams h first !! nm' = savedValues !! nm') ∧
  (∀ nm' v', first !! nm' = Some v' → updateParams h first !! nm' = Some v').
Proof.
  simpl. split_and!.
  - by rewrite insert_union_singleton_l.
  - by rewrite (assoc_L (∪)).
  - intros nm' Hnone. by rewrite lookup_union_r.
  - intros nm' v' Hsome. by apply lookup_union_Some_l.
Qed.

End ClientFacts.

(** * The client properties on the example *)

Section ClientScenarios.
Import ClientScenario.

#[local] Abbreviation shown := (getField Member throughMember).
#[local] Abbreviation counter := (activeParamsCount sameValue Member throughMember).

(** Decidable facts about the example hold by evaluation. *)
Ltac by_decision :=
  match goal with |- ?P => apply (@bool_decide_unpack P _) end; vm_compute; exact I.

(** The parameters of the example have plain names. *)
Ltac plain_names :=
  let param := fresh "param" in
  let Hin := fresh "Hin" in
  intros param Hin; vm_compute in Hin;
  repeat (apply elem_of_cons in Hin as [->|Hin]; [reflexivity|]);
  by apply elem_of_nil in Hin.

(** X14 on the example: the saved temperature is shown. *)
Lemma values_default_fallback_witness :
  shown (values (render saved)) "temperature" = Some (Number 2).
Proof.
  apply (values_default_fallback Member kindOfValue throughMember
           (Some "gpt") saved modelsData false temperature).
  - by_decision.
  - plain_names.
  - by_decision.
Defined.

(** The values of the example: the saved temperature, the default of
    [stream], nothing for [effort] and nothing for the stale name. *)
Example values_run :
  values (render saved)
    = {| own := {[ "temperature" := Some (Number 2); "stream" := Some (Boolean false) ]};
         prototype := ObjectPrototype |}.
Proof. vm_compute. reflexivity. Qed.

(** A parameter named ["toString"] with nothing saved: the read of the
    saved value finds the function every object inherits, which is shown
    instead of the default and counts as a change. *)
Example inherited_name_run :
  parameters (hook "odd" ∅) = [toStringParam] ∧
  shown (values (hook "odd" ∅)) "toString" = Some (Member "toString") ∧
  counter (hook "odd" ∅) = 1.
Proof. split_and!; vm_compute; reflexivity. Qed.

(** X15 on the example: after [updateParam("stream", true)] the stream is
    shown as set and the temperature as before. *)
Lemma updateParam_shown_witness :
  let h := render saved in
  let h' := render (updateParam h "stream" (Some (Boolean true))) in
  parameters h' = parameters h ∧
  shown (values h') "stream" = Some (Boolean true) ∧
  ∀ nm', nm' ≠ "stream" → shown (values h') nm' = shown (values h) nm'.
Proof.
  apply (updateParam_shown Member kindOfValue throughMember
           (Some "gpt") saved modelsData false "stream" (Boolean true)).
  - by_decision.
  - discriminate.
Defined.

(** X16 on the example: one parameter, the temperature, is changed. *)
Lemma active_count_witness :
  counter (render saved) = 1.
Proof.
  apply (active_count sameValue Member kindOfValue throughMember
           (Some "gpt") saved modelsData false).
  - by_decision.
  - plain_names.
  - intros param default_value _ _. by apply bool_decide_eq_true.
Defined.

(** X17 on the example: after the reset the defaults are shown and the
    counter is zero. *)
Lemma reset_restores_defaults_witness :
  let h := render saved in
  let reset := render (resetToDefaults h) in
  (∀ param, param ∈ parameters h →
     shown (values reset) (param_name param) = param_default_value param) ∧
  counter reset = 0 ∧
  (∀ param, param ∈ parameters h →
     let cleared := render (updateParam h (param_name param) None) in
     shown (values cleared) (param_name param) = param_default_value param).
Proof.
  apply (reset_restores_defaults sameValue Member kindOfValue throughMember
           (Some "gpt") saved modelsData false).
  - by_decision.
  - plain_names.
  - intros param default_value _ _. by apply bool_decide_eq_true.
Defined.

End ClientScenarios.
